(** * Log dispatching, batching and live listening (tsuru [app/log.go], [api/log.go])

    A shallow embedding of the per-application log pipeline
    ([appLogDispatcher] with its two goroutines [runDBWriter] and
    [runFlusher]), of the routing [logDispatcher] ([Send], [Stop]), of the
    live [LogListener] and of the websocket endpoint [addLogs].

    Goroutines are program counters inside the state of the object that
    owns them; one scheduling decision moves one goroutine by one
    communication.  Every transition is a function of the decision, so an
    execution is a list of decisions and can be evaluated. *)

From Stdlib Require Import ZArith Lia.
From stdpp Require Import base option gmap strings list.

Open Scope string_scope.
Open Scope list_scope.
Open Scope Z_scope.

(** ** Go values used by the code *)

(** A Go [error] is represented by its [Error()] text; [nil] is [None]. *)
Definition error : Type := string.

(** Result of running a piece of code under a fixed scheduling decision:
    it returns, it cannot proceed under that decision (the chosen
    communication is not ready), or it panics. *)
Inductive outcome (A : Type) : Type :=
| Returns (a : A)
| Stuck
| Panics (reason : string).
Arguments Returns {A} a.
Arguments Stuck {A}.
Arguments Panics {A} reason.

#[export] Instance outcome_ret : MRet outcome := fun A a => Returns a.
#[export] Instance outcome_bind : MBind outcome := fun A B f m =>
  match m with
  | Returns a => f a
  | Stuck => Stuck
  | Panics r => Panics r
  end.

(** Modelled from the spec: the type [app.Applog], which is declared
    outside the files at hand.  The spec's LogEntry has an application
    name, a source, a unit, a message and a timestamp; the code reads
    [AppName], [Source] and [Unit]. *)
Record Applog : Type := mkApplog {
  Date : Z;
  Message : string;
  Source : string;
  AppName : string;
  Unit : string
}.

#[export] Instance Applog_eq_dec : EqDecision Applog.
Proof. solve_decision. Defined.

(** [time.Duration] counts nanoseconds. *)
Definition Millisecond : Z := 1000000.
Definition bulkMaxWaitTime : Z := 500 * Millisecond.

Definition LogPubSubQueuePrefix : string := "pubsub:".
Definition logQueueName (appName : string) : string :=
  LogPubSubQueuePrefix +:+ appName.

(** A [time.Timer]: [when] is the instant it will expire at while it is
    running, [C] tells whether its channel (capacity one) holds an expiry.
    [Reset] restarts a timer and leaves its channel untouched. *)
Record Timer : Type := mkTimer {
  when : option Z;
  C : bool
}.

Definition NewTimer (now d : Z) : Timer :=
  {| when := Some (now + d); C := false |}.

Definition Reset (now d : Z) (t : Timer) : Timer :=
  {| when := Some (now + d); C := C t |}.

(** The runtime fires a running timer once its instant has come. *)
Definition expire (now : Z) (t : Timer) : option Timer :=
  match when t with
  | Some w => if w <=? now then Some {| when := None; C := true |} else None
  | None => None
  end.

(** [<-t.C] *)
Definition recv_C (t : Timer) : option Timer :=
  if C t then Some {| when := when t; C := false |} else None.

(** A Go slice seen through its elements and its capacity.  [append]
    keeps the capacity while there is room and grows the backing array
    otherwise; [s[:0]] keeps the capacity. *)
Record slice : Type := mkSlice {
  items : list Applog;
  cap : nat
}.

Definition make_slice (capacity : nat) : slice :=
  {| items := []; cap := capacity |}.

Definition len (s : slice) : nat := length (items s).

Definition append (s : slice) (x : Applog) : slice :=
  {| items := items s ++ [x];
     cap := if (len s <? cap s)%nat then cap s else Nat.max 1 (2 * cap s) |}.

Definition reslice0 (s : slice) : slice :=
  {| items := []; cap := cap s |}.

(** ** [appLogDispatcher]: one application's pipeline *)

(** Where [runDBWriter] stands: at the [range d.msgCh] receive, blocked on
    [d.toFlush <- msg] (after [notify]), or returned ([d.done] closed). *)
Inductive writer_pc : Type :=
| WRange
| WToFlush (msg : Applog)
| WDone.

(** Where [runFlusher] stands: about to call [db.LogConn], at the
    [select], about to call [coll.Insert(bulkBuffer...)], blocked on
    [d.errCh <- err], or returned ([d.errCh] closed). *)
Inductive flusher_pc : Type :=
| FLogConn
| FSelect
| FInsert
| FErrCh (err : error)
| FReturned.

Definition msgCh_capacity : nat := 100 * 100.

Record appLogDispatcher : Type := mkAppD {
  appName : string;
  msgCh : list Applog;          (* queued entries, oldest first *)
  msgCh_closed : bool;
  writer : writer_pc;           (* runDBWriter; d.done is closed iff WDone *)
  flusher : flusher_pc;         (* runFlusher; d.errCh is closed iff FReturned *)
  t : Timer;
  bulkBuffer : slice;
  clock : Z;                    (* time elapsed since the pipeline was created *)
  notified : list Applog;       (* entries handed to notify, in order *)
  inserted : list (list Applog) (* batches stored by coll.Insert, in order *)
}.

Definition set_msgCh (q : list Applog) (d : appLogDispatcher) :=
  mkAppD (appName d) q (msgCh_closed d) (writer d) (flusher d) (t d)
         (bulkBuffer d) (clock d) (notified d) (inserted d).
Definition set_msgCh_closed (b : bool) (d : appLogDispatcher) :=
  mkAppD (appName d) (msgCh d) b (writer d) (flusher d) (t d)
         (bulkBuffer d) (clock d) (notified d) (inserted d).
Definition set_writer (w : writer_pc) (d : appLogDispatcher) :=
  mkAppD (appName d) (msgCh d) (msgCh_closed d) w (flusher d) (t d)
         (bulkBuffer d) (clock d) (notified d) (inserted d).
Definition set_flusher (f : flusher_pc) (d : appLogDispatcher) :=
  mkAppD (appName d) (msgCh d) (msgCh_closed d) (writer d) f (t d)
         (bulkBuffer d) (clock d) (notified d) (inserted d).
Definition set_t (tm : Timer) (d : appLogDispatcher) :=
  mkAppD (appName d) (msgCh d) (msgCh_closed d) (writer d) (flusher d) tm
         (bulkBuffer d) (clock d) (notified d) (inserted d).
Definition set_bulkBuffer (b : slice) (d : appLogDispatcher) :=
  mkAppD (appName d) (msgCh d) (msgCh_closed d) (writer d) (flusher d) (t d)
         b (clock d) (notified d) (inserted d).
Definition set_clock (c : Z) (d : appLogDispatcher) :=
  mkAppD (appName d) (msgCh d) (msgCh_closed d) (writer d) (flusher d) (t d)
         (bulkBuffer d) c (notified d) (inserted d).
Definition set_notified (l : list Applog) (d : appLogDispatcher) :=
  mkAppD (appName d) (msgCh d) (msgCh_closed d) (writer d) (flusher d) (t d)
         (bulkBuffer d) (clock d) l (inserted d).
Definition set_inserted (l : list (list Applog)) (d : appLogDispatcher) :=
  mkAppD (appName d) (msgCh d) (msgCh_closed d) (writer d) (flusher d) (t d)
         (bulkBuffer d) (clock d) (notified d) l.

(** [newAppLogDispatcher]: the four channels are empty and open, both
    goroutines are at their first statement; [runFlusher] creates its
    timer and its buffer of capacity 100 before anything else. *)
Definition newAppLogDispatcher (name : string) : appLogDispatcher :=
  {| appName := name;
     msgCh := []; msgCh_closed := false;
     writer := WRange;
     flusher := FLogConn;
     t := NewTimer 0 bulkMaxWaitTime;
     bulkBuffer := make_slice 100;
     clock := 0;
     notified := [];
     inserted := [] |}.

(** One step of [runDBWriter]: take the next entry of [msgCh] and publish
    it with [notify] (whose failures are only logged), or leave the
    [range] loop once the channel is closed and drained, which closes
    [d.done].  The hand-off [d.toFlush <- msg] itself completes inside the
    flusher's [select]. *)
Definition runDBWriter (d : appLogDispatcher) : outcome appLogDispatcher :=
  match writer d with
  | WRange =>
      match msgCh d with
      | msg :: rest =>
          Returns (set_writer (WToFlush msg)
                     (set_notified (notified d ++ [msg]) (set_msgCh rest d)))
      | [] => if msgCh_closed d then Returns (set_writer WDone d) else Stuck
      end
  | WToFlush _ => Stuck
  | WDone => Stuck
  end.

(** What the flusher does next: the result of [db.LogConn], which case of
    the [select] is taken, the result of [coll.Insert]. *)
Inductive flusher_event : Type :=
| EvLogConn (r : option error)
| EvDone
| EvToFlush
| EvTimer
| EvInsert (r : option error).

(** One step of [runFlusher]. *)
Definition runFlusher (ev : flusher_event) (d : appLogDispatcher)
  : outcome appLogDispatcher :=
  match flusher d, ev with
  | FLogConn, EvLogConn (Some err) => Returns (set_flusher (FErrCh err) d)
  | FLogConn, EvLogConn None => Returns (set_flusher FSelect d)
  | FSelect, EvDone =>
      match writer d with
      | WDone => Returns (set_flusher FReturned d)
      | _ => Stuck
      end
  | FSelect, EvToFlush =>
      match writer d with
      | WToFlush msg =>
          let buf := append (bulkBuffer d) msg in
          let flush := (len buf =? cap buf)%nat in
          let d1 := set_writer WRange (set_bulkBuffer buf d) in
          if flush then Returns (set_flusher FInsert d1)
          else Returns (set_t (Reset (clock d) bulkMaxWaitTime (t d)) d1)
      | _ => Stuck
      end
  | FSelect, EvTimer =>
      match recv_C (t d) with
      | Some t' =>
          let flush := (0 <? len (bulkBuffer d))%nat in
          let d1 := set_t t' d in
          if flush then Returns (set_flusher FInsert d1) else Returns d1
      | None => Stuck
      end
  | FInsert, EvInsert r =>
      match r with
      | Some err => Returns (set_flusher (FErrCh err) d)
      | None =>
          Returns (set_flusher FSelect
                     (set_bulkBuffer (reslice0 (bulkBuffer d))
                        (set_inserted (inserted d ++ [items (bulkBuffer d)]) d)))
      end
  | _, _ => Stuck
  end.

(** Scheduling decisions for one pipeline: a goroutine moves, time
    passes, the runtime fires the timer. *)
Inductive sched : Type :=
| Writer
| Flusher (ev : flusher_event)
| Elapse (dt : Z)
| Expire.

Definition step (s : sched) (d : appLogDispatcher) : outcome appLogDispatcher :=
  match s with
  | Writer => runDBWriter d
  | Flusher ev => runFlusher ev d
  | Elapse dt => if 0 <=? dt then Returns (set_clock (clock d + dt) d) else Stuck
  | Expire =>
      match expire (clock d) (t d) with
      | Some t' => Returns (set_t t' d)
      | None => Stuck
      end
  end.

(** The batch the flusher is about to give to [coll.Insert]. *)
Definition insert_args (d : appLogDispatcher) : option (list Applog) :=
  match flusher d with
  | FInsert => Some (items (bulkBuffer d))
  | _ => None
  end.

Fixpoint run (ss : list sched) (d : appLogDispatcher) : outcome appLogDispatcher :=
  match ss with
  | [] => Returns d
  | s :: ss' => d' ← step s d; run ss' d'
  end.

(** The caller's side of the channels. *)

(** [appD.msgCh <- msg] as a [select] case: ready while the queue has
    room; sending on a closed channel panics. *)
Definition send_msgCh (msg : Applog) (d : appLogDispatcher)
  : outcome appLogDispatcher :=
  if msgCh_closed d then Panics "send on closed channel"
  else if (length (msgCh d) <? msgCh_capacity)%nat
       then Returns (set_msgCh (msgCh d ++ [msg]) d)
       else Stuck.

(** [close(appD.msgCh)] *)
Definition close_msgCh (d : appLogDispatcher) : outcome appLogDispatcher :=
  if msgCh_closed d then Panics "close of closed channel"
  else Returns (set_msgCh_closed true d).

(** [<-appD.errCh]: meets the flusher blocked on [d.errCh <- err], which
    then returns and closes the channel; a closed channel yields [nil]. *)
Definition recv_errCh (d : appLogDispatcher)
  : outcome (option error * appLogDispatcher) :=
  match flusher d with
  | FErrCh err => Returns (Some err, set_flusher FReturned d)
  | FReturned => Returns (None, d)
  | _ => Stuck
  end.

(** Everything that can happen to one pipeline: its goroutines and time
    ([Task]), and what [Send] and [Stop] do to its channels. *)
Inductive event : Type :=
| Task (s : sched)
| Enqueue (msg : Applog)
| CloseQueue
| RecvErrCh.

Definition event_step (ev : event) (d : appLogDispatcher)
  : outcome appLogDispatcher :=
  match ev with
  | Task s => step s d
  | Enqueue msg => send_msgCh msg d
  | CloseQueue => close_msgCh d
  | RecvErrCh => '(_, d') ← recv_errCh d; Returns d'
  end.

Fixpoint events_run (evs : list event) (d : appLogDispatcher)
  : outcome appLogDispatcher :=
  match evs with
  | [] => Returns d
  | ev :: evs' => d' ← event_step ev d; events_run evs' d'
  end.

(** The entries enqueued during a run, in order. *)
Definition sent (evs : list event) : list Applog :=
  omap (λ ev, match ev with Enqueue msg => Some msg | _ => None end) evs.

(** The entry the writer holds at [d.toFlush <- msg], if any. *)
Definition in_handoff (d : appLogDispatcher) : list Applog :=
  match writer d with
  | WToFlush msg => [msg]
  | _ => []
  end.

(** ** [logDispatcher]: routing by application name *)

(** [dispatchers] is the Go map.  [retired] keeps, in order, the pipelines
    that [Send] or [Stop] removed from the map, as they were when they were
    removed: neither function touches them again. *)
Record logDispatcher : Type := mkLogD {
  dispatchers : gmap string appLogDispatcher;
  retired : list appLogDispatcher
}.

Definition NewlogDispatcher : logDispatcher :=
  {| dispatchers := ∅; retired := [] |}.

(** The pipeline's goroutines run while the caller is elsewhere. *)
Definition background (name : string) (s : sched) (d : logDispatcher)
  : outcome logDispatcher :=
  match dispatchers d !! name with
  | Some appD =>
      appD' ← step s appD;
      Returns (mkLogD (<[name := appD']> (dispatchers d)) (retired d))
  | None => Stuck
  end.

Fixpoint backgrounds (bs : list (string * sched)) (d : logDispatcher)
  : outcome logDispatcher :=
  match bs with
  | [] => Returns d
  | (name, s) :: bs' => d' ← background name s d; backgrounds bs' d'
  end.

(** Which case of [Send]'s [select] is taken. *)
Inductive select_case : Type :=
| CaseMsgCh
| CaseErrCh.

(** [logDispatcher.Send].  [pre] is what the pipeline's goroutines do
    between the lookup (or creation) and the moment the [select] commits
    to the case [sel]. *)
Definition Send (pre : list sched) (sel : select_case) (msg : Applog)
    (d : logDispatcher) : outcome (option error * logDispatcher) :=
  let appName := AppName msg in
  let appD :=
    match dispatchers d !! appName with
    | Some appD => appD
    | None => newAppLogDispatcher appName
    end in
  appD ← run pre appD;
  match sel with
  | CaseMsgCh =>
      appD ← send_msgCh msg appD;
      Returns (None, mkLogD (<[appName := appD]> (dispatchers d)) (retired d))
  | CaseErrCh =>
      '(err, appD) ← recv_errCh appD;
      appD ← close_msgCh appD;
      Returns (err, mkLogD (delete appName (dispatchers d)) (retired d ++ [appD]))
  end.

(** [finalErr] after one more pipeline reported [err]. *)
Definition join_err (finalErr err : option error) : option error :=
  match err with
  | Some e =>
      match finalErr with
      | None => Some e
      | Some f => Some (f +:+ ", " +:+ e)
      end
  | None => finalErr
  end.

(** One iteration of [Stop]'s loop on the pipeline [appD]; [ss] is what
    its goroutines do between [close(appD.msgCh)] and the receive on
    [appD.errCh]. *)
Definition stop_one (ss : list sched) (appD : appLogDispatcher)
  : outcome (option error * appLogDispatcher) :=
  appD ← close_msgCh appD;
  appD ← run ss appD;
  recv_errCh appD.

(** [logDispatcher.Stop].  [order] is the order in which [range] visits
    the map, with the schedule of each pipeline; the loop ends when every
    entry has been visited, that is when the map is empty. *)
Fixpoint Stop_from (order : list (string * list sched)) (finalErr : option error)
    (d : logDispatcher) : outcome (option error * logDispatcher) :=
  match order with
  | [] =>
      if decide (dom (dispatchers d) = ∅) then Returns (finalErr, d) else Stuck
  | (appName, ss) :: order' =>
      match dispatchers d !! appName with
      | Some appD =>
          '(err, appD) ← stop_one ss appD;
          Stop_from order' (join_err finalErr err)
            (mkLogD (delete appName (dispatchers d)) (retired d ++ [appD]))
      | None => Stuck
      end
  end.

Definition Stop (order : list (string * list sched)) (d : logDispatcher)
  : outcome (option error * logDispatcher) :=
  Stop_from order None d.

(** Every batch stored through [coll.Insert] by the pipelines of a dispatcher,
    past and present, for one application. *)
Definition persisted (name : string) (d : logDispatcher) : list (list Applog) :=
  concat (map inserted (filter (λ p, appName p = name) (retired d)))
  ++ match dispatchers d !! name with
     | Some appD => inserted appD
     | None => []
     end.

(** ** [LogListener]: live, filtered listening *)

(** A call into a collaborator either returns or panics with a value. *)
Inductive call_result : Type :=
| Returned (err : option error)
| Panicked (v : string).

(** The condition guarding [c <- applog] in [NewLogListener]. *)
Definition matches (filterLog applog : Applog) : bool :=
  (String.eqb (Source filterLog) "" || String.eqb (Source filterLog) (Source applog))
  && (String.eqb (Unit filterLog) "" || String.eqb (Unit filterLog) (Unit applog)).

(** Where the forwarding goroutine stands: at the [range subChan]
    receive, at [c <- applog], or returned (then [c] is closed). *)
Inductive forwarder_pc : Type :=
| LRange
| LSend (applog : Applog)
| LReturned.

Definition c_capacity : nat := 10.

Section LogListener.
(** [json.Unmarshal] into a fresh [Applog]. *)
Variable unmarshal : string → Applog + error.
(** The [queue.PubSubQ] session and its [UnSub] method; [gosyntax] is
    the [%#v] rendering of a recovered panic value. *)
Variable Q : Type.
Variable UnSub : Q → call_result * Q.
Variable gosyntax : string → string.

Record LogListener : Type := mkListener {
  filterLog : Applog;
  q : Q;
  subChan : list string;       (* messages of the topic not yet read *)
  subChan_closed : bool;
  c : list Applog;             (* the channel behind [C], capacity 10 *)
  c_closed : bool;
  forwarder : forwarder_pc;
  recovers : nat;              (* deferred [recover()] closures so far *)
  errlog : list string;
  delivered : list Applog      (* every entry sent into [c], in order *)
}.

Definition set_subChan (s : list string) (l : LogListener) :=
  mkListener (filterLog l) (q l) s (subChan_closed l) (c l) (c_closed l)
             (forwarder l) (recovers l) (errlog l) (delivered l).
Definition set_forwarder (f : forwarder_pc) (l : LogListener) :=
  mkListener (filterLog l) (q l) (subChan l) (subChan_closed l) (c l) (c_closed l)
             f (recovers l) (errlog l) (delivered l).
Definition set_c (ch : list Applog) (l : LogListener) :=
  mkListener (filterLog l) (q l) (subChan l) (subChan_closed l) ch (c_closed l)
             (forwarder l) (recovers l) (errlog l) (delivered l).

(** [NewLogListener]: [sub] is the outcome of [queue.Factory()],
    [factory.PubSub(logQueueName(a.Name))] and [pubSubQ.Sub()] taken
    together, the first error or the subscribed session. *)
Definition NewLogListener (sub : error + Q) (filter : Applog)
  : error + LogListener :=
  match sub with
  | inl err => inl err
  | inr pubSubQ =>
      inr {| filterLog := filter; q := pubSubQ;
             subChan := []; subChan_closed := false;
             c := []; c_closed := false;
             forwarder := LRange; recovers := 0;
             errlog := []; delivered := [] |}
  end.

(** One step of the goroutine started by [NewLogListener].  On return
    the deferred calls run newest first: the [recover()] closures,
    which find no panic, then [close(c)].  A send on a closed [c] would
    panic; the newest [recover()] would stop that panic, and the
    deferred [close(c)] would then panic with nothing left to recover. *)
Definition forward (l : LogListener) : outcome LogListener :=
  match forwarder l with
  | LRange =>
      match subChan l with
      | msg :: rest =>
          match unmarshal msg with
          | inr _ =>
              Returns (mkListener (filterLog l) (q l) rest (subChan_closed l)
                         (c l) (c_closed l) LRange (recovers l)
                         (errlog l ++ ["Unparsable log message, ignoring: " +:+ msg])
                         (delivered l))
          | inl applog =>
              if matches (filterLog l) applog
              then Returns (mkListener (filterLog l) (q l) rest (subChan_closed l)
                              (c l) (c_closed l) (LSend applog) (S (recovers l))
                              (errlog l) (delivered l))
              else Returns (set_subChan rest l)
          end
      | [] =>
          if subChan_closed l then
            if c_closed l then Panics "close of closed channel"
            else Returns (mkListener (filterLog l) (q l) [] true (c l) true
                            LReturned (recovers l) (errlog l) (delivered l))
          else Stuck
      end
  | LSend applog =>
      if c_closed l then
        match recovers l with
        | O => Panics "send on closed channel"
        | S _ => Panics "close of closed channel"
        end
      else if (length (c l) <? c_capacity)%nat then
        Returns (mkListener (filterLog l) (q l) (subChan l) (subChan_closed l)
                   (c l ++ [applog]) (c_closed l) LRange (recovers l)
                   (errlog l) (delivered l ++ [applog]))
      else Stuck
  | LReturned => Stuck
  end.

(** [LogListener.Close]: the deferred closure turns a panic of
    [l.q.UnSub()] into the returned error. *)
Definition Close (l : LogListener) : option error * LogListener :=
  let '(r, q') := UnSub (q l) in
  let l' := mkListener (filterLog l) q' (subChan l) (subChan_closed l) (c l)
              (c_closed l) (forwarder l) (recovers l) (errlog l) (delivered l) in
  match r with
  | Returned err => (err, l')
  | Panicked v =>
      (Some ("Recovered panic closing listener (possible double close): "
             +:+ gosyntax v), l')
  end.

(** What happens around a listener: the topic delivers a message or
    ends the subscription channel, the forwarding goroutine moves, the
    consumer receives from [C] or calls [Close]. *)
Inductive listener_event : Type :=
| Published (msg : string)
| SubChanClosed
| Forward
| Receive
| CallClose.

Definition listener_step (ev : listener_event) (l : LogListener)
  : outcome LogListener :=
  match ev with
  | Published msg =>
      if subChan_closed l then Stuck
      else Returns (set_subChan (subChan l ++ [msg]) l)
  | SubChanClosed =>
      Returns (mkListener (filterLog l) (q l) (subChan l) true (c l) (c_closed l)
                 (forwarder l) (recovers l) (errlog l) (delivered l))
  | Forward => forward l
  | Receive =>
      match c l with
      | _ :: rest => Returns (set_c rest l)
      | [] => if c_closed l then Returns l else Stuck
      end
  | CallClose => Returns (snd (Close l))
  end.

Fixpoint listener_run (evs : list listener_event) (l : LogListener)
  : outcome LogListener :=
  match evs with
  | [] => Returns l
  | ev :: evs' => l' ← listener_step ev l; listener_run evs' l'
  end.

(** The messages the topic delivered during a run. *)
Definition published (evs : list listener_event) : list string :=
  omap (λ ev, match ev with Published msg => Some msg | _ => None end) evs.

(** The entry the goroutine holds at [c <- applog], if any. *)
Definition in_flight (l : LogListener) : list Applog :=
  match forwarder l with
  | LSend applog => [applog]
  | _ => []
  end.

(** The entries a list of messages gives rise to: those that decode
    and pass the filter. *)
Definition selected (filter : Applog) (msgs : list string) : list Applog :=
  omap (λ msg, match unmarshal msg with
               | inl applog => if matches filter applog then Some applog else None
               | inr _ => None
               end) msgs.

(** What the goroutine has delivered, holds, and will still select. *)
Definition flow (l : LogListener) : list Applog :=
  delivered l ++ in_flight l ++ selected (filterLog l) (subChan l).
End LogListener.

Arguments filterLog {Q} _.
Arguments q {Q} _.
Arguments subChan {Q} _.
Arguments subChan_closed {Q} _.
Arguments c {Q} _.
Arguments c_closed {Q} _.
Arguments forwarder {Q} _.
Arguments recovers {Q} _.
Arguments errlog {Q} _.
Arguments delivered {Q} _.
Arguments NewLogListener {Q} sub filter.
Arguments forward unmarshal {Q} l.
Arguments Close {Q} UnSub gosyntax l.
Arguments listener_step unmarshal {Q} UnSub gosyntax ev l.
Arguments listener_run unmarshal {Q} UnSub gosyntax evs l.
Arguments in_flight {Q} l.
Arguments flow unmarshal {Q} l.

(** ** [addLogs]: the websocket endpoint *)

Inductive ws_op : Type :=
| WsWrite (data_error : option string)   (* the frame: a JSON object with one field, error *)
| WsClose.

(** What the goroutines do around one call to [Send]: [bg] before the
    call, [pre] and [sel] inside it. *)
Record send_sched : Type := mkSendSched {
  bg : list (string * sched);
  pre : list sched;
  sel : select_case
}.

Record conn_sched : Type := mkConnSched {
  sends : list send_sched;
  stop_bg : list (string * sched);
  stop_order : list (string * list sched)
}.

Record conn_result : Type := mkConnResult {
  ws : list ws_op;                      (* what was done to the connection *)
  oplog : list string;                  (* log.Error, log.Errorf *)
  dispatcher : option logDispatcher     (* the connection's dispatcher, if it got one *)
}.

(** How the [for scanner.Scan()] loop is left. *)
Inductive loop_exit : Type :=
| LoopEnd
| LoopUnparsable (data : string) (err : error).

Section addLogs.
Variable unmarshal : string → Applog + error.   (* json.Unmarshal *)
Variable TrimSpace : string → string.           (* bytes.TrimSpace *)
Variable quote : string → string.               (* the %q verb *)
Variable InternalAppName : string.              (* app.InternalAppName *)

(** The body of the loop over the tokens of the scanner. *)
Fixpoint scan_loop (lines : list string) (ss : list send_sched)
    (log : list string) (d : logDispatcher)
  : outcome (loop_exit * list string * logDispatcher) :=
  match lines with
  | [] => Returns (LoopEnd, log, d)
  | line :: lines' =>
      let data := TrimSpace line in
      if (String.length data =? 0)%nat then scan_loop lines' ss log d
      else
        match unmarshal data with
        | inr err => Returns (LoopUnparsable data err, log, d)
        | inl entry =>
            let s := hd (mkSendSched [] [] CaseMsgCh) ss in
            d ← backgrounds (bg s) d;
            '(err, d) ← Send (pre s) (sel s) entry d;
            scan_loop lines' (tl ss)
              (match err with
               | Some e => log ++ ["wslogs: error storing log: " +:+ e]
               | None => log
               end) d
        end
  end.

(** The deferred closure: one frame, then the connection is closed. *)
Definition deferred (err : option error) (log : list string)
    (d : option logDispatcher) : conn_result :=
  {| ws := [WsWrite err; WsClose];
     oplog := match err with Some e => log ++ [e] | None => log end;
     dispatcher := d |}.

(** [token] is [None] when [context.GetAuthToken] returns nil and the
    token's application name otherwise; [lines] are the tokens the
    scanner yields and [scanErr] is [scanner.Err()] once it stops. *)
Definition addLogs (token : option string) (lines : list string)
    (scanErr : option error) (cs : conn_sched) : outcome conn_result :=
  match token with
  | None => Returns (deferred (Some "wslogs: no token") [] None)
  | Some tokenApp =>
      if negb (String.eqb tokenApp InternalAppName) then
        Returns (deferred
                   (Some ("wslogs: invalid token app name: " +:+ quote tokenApp))
                   [] None)
      else
        '(exit, log, d) ← scan_loop lines (sends cs) [] NewlogDispatcher;
        d ← backgrounds (stop_bg cs) d;
        '(err, d) ← Stop (stop_order cs) d;
        match exit with
        | LoopUnparsable data perr =>
            Returns (deferred
                       (Some ("wslogs: parsing log line " +:+ quote data
                              +:+ ": " +:+ perr))
                       log (Some d))
        | LoopEnd =>
            match err with
            | Some e =>
                Returns (deferred (Some ("wslogs: error storing log: " +:+ e))
                           log (Some d))
            | None =>
                match scanErr with
                | Some e =>
                    Returns (deferred
                               (Some ("wslogs: waiting for log data: " +:+ e))
                               log (Some d))
                | None => Returns (deferred None log (Some d))
                end
            end
        end
  end.

(** The first line that is not blank and does not decode, trimmed, with
    the decoder's error. *)
Fixpoint first_unparsable (lines : list string) : option (string * error) :=
  match lines with
  | [] => None
  | line :: lines' =>
      let data := TrimSpace line in
      if (String.length data =? 0)%nat then first_unparsable lines'
      else
        match unmarshal data with
        | inr err => Some (data, err)
        | inl _ => first_unparsable lines'
        end
  end.
End addLogs.


(** ** Invariants and small vocabulary for the statements *)

(** Everything a pipeline has taken in and where it now is: stored,
    buffered by the flusher, held by the writer, still queued. *)
Definition history (d : appLogDispatcher) : list Applog :=
  concat (inserted d) ++ items (bulkBuffer d) ++ in_handoff d ++ msgCh d.

(** The buffer never outgrows its backing array of 100 entries, and it
    is below 100 whenever the flusher is at its [select]. *)
Definition buffer_inv (d : appLogDispatcher) : Prop :=
  cap (bulkBuffer d) = 100%nat
  ∧ (len (bulkBuffer d) ≤ 100)%nat
  ∧ (flusher d = FLogConn → items (bulkBuffer d) = [] ∧ inserted d = [])
  ∧ (flusher d = FSelect → (len (bulkBuffer d) < 100)%nat)
  ∧ (flusher d = FInsert → (1 ≤ len (bulkBuffer d))%nat)
  ∧ Forall (λ batch, (1 ≤ length batch ≤ 100)%nat) (inserted d).

(** Pipelines in the routing table have an open queue and sit under
    their own name. *)
Definition tracked_inv (d : logDispatcher) : Prop :=
  ∀ name appD, dispatchers d !! name = Some appD →
    msgCh_closed appD = false ∧ appName appD = name.

(** Retired pipelines have a closed queue and a returned flusher. *)
Definition retired_inv (d : logDispatcher) : Prop :=
  Forall (λ appD, msgCh_closed appD = true ∧ flusher appD = FReturned)
         (retired d).

(** [e] occurs in the text [r]. *)
Definition mentions (e r : string) : Prop :=
  ∃ before after, r = before +:+ e +:+ after.

(** ** Sample data for the concrete executions *)

(** The state a run ends in ([d] itself when the run does not return). *)
Definition after (evs : list event) (d : appLogDispatcher) : appLogDispatcher :=
  match events_run evs d with
  | Returns d' => d'
  | _ => d
  end.

(** The [i]-th entry of application x. *)
Definition entry (i : nat) : Applog :=
  {| Date := Z.of_nat i; Message := "line"; Source := "app";
     AppName := "x"; Unit := "unit1" |}.

Definition entries (n : nat) : list Applog := map entry (seq 0 n).

Definition connect : event := Task (Flusher (EvLogConn None)).

(** The writer takes the next entry and the flusher accepts it. *)
Definition handoff : list event := [Task Writer; Task (Flusher EvToFlush)].

(** 100 entries are queued, storage is connected, 99 entries have reached
    the buffer and the writer holds the 100th. *)
Definition hundredth_pending : list event :=
  map Enqueue (entries 100) ++ connect :: concat (replicate 99 handoff)
  ++ [Task Writer].

(** The same, 200ms after the 99th entry was accepted. *)
Definition hundredth_pending_later : list event :=
  hundredth_pending ++ [Task (Elapse (200 * Millisecond))].

(** A dispatcher whose pipeline for x took one entry, connected, and
    had its first timed insert fail with "boom". *)
Definition after_insert_failure : outcome logDispatcher :=
  '(_, d) ← Send [] CaseMsgCh (entry 0) NewlogDispatcher;
  backgrounds
    [("x", Flusher (EvLogConn None)); ("x", Writer); ("x", Flusher EvToFlush);
     ("x", Elapse bulkMaxWaitTime); ("x", Expire); ("x", Flusher EvTimer);
     ("x", Flusher (EvInsert (Some "boom")))] d.

(** What the goroutines of a healthy pipeline holding one entry do once
    the queue is closed: connect, hand the entry over, see [done]. *)
Definition drain_one : list sched :=
  [Flusher (EvLogConn None); Writer; Flusher EvToFlush; Writer; Flusher EvDone].

(** The writer has left its loop only on a closed and drained queue. *)
Definition queue_inv (d : appLogDispatcher) : Prop :=
  writer d = WDone → msgCh d = [] ∧ msgCh_closed d = true.

(** The result of a call that returns ([default] otherwise). *)
Definition returned {A : Type} (o : outcome A) (default : A) : A :=
  match o with
  | Returns a => a
  | _ => default
  end.

Definition failed_dispatcher : logDispatcher :=
  returned after_insert_failure NewlogDispatcher.

(** The report [Stop] builds from the texts of the errors it received. *)
Definition report (texts : list error) : option error :=
  match texts with
  | [] => None
  | _ => Some (String.concat ", " texts)
  end.

Definition entry_y : Applog :=
  {| Date := 7; Message := "line"; Source := "app"; AppName := "y"; Unit := "unit1" |}.

(** Two applications: the pipeline of x holds the error of a failed
    insert, the pipeline of y holds one entry and has not started. *)
Definition two_apps : logDispatcher :=
  returned ('(_, d) ← Send [] CaseMsgCh entry_y failed_dispatcher; Returns d)
           NewlogDispatcher.

(** Stand-ins for the collaborators, used in the concrete executions
    only.  Messages read application:source:unit:text. *)
Fixpoint cut (sep : Ascii.ascii) (s : string) : string * option string :=
  match s with
  | EmptyString => (EmptyString, None)
  | String a s' =>
      if Ascii.eqb a sep then (EmptyString, Some s')
      else let '(h, r) := cut sep s' in (String a h, r)
  end.

Definition colon : Ascii.ascii := Ascii.ascii_of_nat 58.

Definition sample_unmarshal (msg : string) : Applog + error :=
  match cut colon msg with
  | (app, Some rest) =>
      match cut colon rest with
      | (source, Some rest') =>
          match cut colon rest' with
          | (unit, Some text) => inl (mkApplog 0 text source app unit)
          | _ => inr "unexpected end of input"
          end
      | _ => inr "unexpected end of input"
      end
  | _ => inr "invalid character"
  end.

Fixpoint trim_left (s : string) : string :=
  match s with
  | EmptyString => EmptyString
  | String a s' => if Ascii.is_space a then trim_left s' else s
  end.

Definition sample_TrimSpace (s : string) : string :=
  String.rev (trim_left (String.rev (trim_left s))).

Definition sample_quote (s : string) : string := "<" +:+ s +:+ ">".

(** A session that is subscribed or not; a second [UnSub] panics the
    way closing a closed channel does. *)
Definition sample_UnSub (subscribed : bool) : call_result * bool :=
  if subscribed then (Returned None, false)
  else (Panicked "close of closed channel", false).

Definition sample_gosyntax (v : string) : string := v.

(** The filter of the example: source "app", any unit. *)
Definition app_filter : Applog :=
  {| Date := 0; Message := ""; Source := "app"; AppName := ""; Unit := "" |}.

(** A connection of the internal application tsr: a good line, a blank
    line, a line that does not decode, a line that is never read. *)
Definition sample_lines : list string :=
  ["x:app:u1:one"; "   "; "not-json"; "x:app:u1:two"].

(** The pipeline of x connects, gets its entry and sees [done]. *)
Definition sample_conn_sched : conn_sched :=
  {| sends := []; stop_bg := []; stop_order := [("x", drain_one)] |}.

(** Three good lines; the storage connection of the first pipeline of x
    fails, the second [Send] returns that error, the third starts a new
    pipeline, whose entry is stored by a timed insert before [Stop]. *)
Definition three_lines : list string :=
  ["x:app:u1:one"; "x:app:u1:two"; "x:app:u1:three"].

Definition storage_outage_sched : conn_sched :=
  {| sends :=
       [mkSendSched [] [] CaseMsgCh;
        mkSendSched [("x", Flusher (EvLogConn (Some "no reachable servers")))]
                    [] CaseErrCh;
        mkSendSched [] [] CaseMsgCh];
     stop_bg :=
       [("x", Flusher (EvLogConn None)); ("x", Writer); ("x", Flusher EvToFlush);
        ("x", Elapse bulkMaxWaitTime); ("x", Expire); ("x", Flusher EvTimer);
        ("x", Flusher (EvInsert None))];
     stop_order := [("x", [Writer; Flusher EvDone])] |}.

(** The connection fails while a first entry is queued; the writer takes
    the entry and a second one is sent. *)
Definition connection_refused : list event :=
  [Enqueue (entry 0)]
  ++ Task (Flusher (EvLogConn (Some "no reachable servers")))
  :: [Task Writer; Enqueue (entry 1)].

(** The consumer closes the listener while messages keep coming. *)
Definition sample_listening : list (listener_event) :=
  [Published "x:app:u1:one"; Forward; Published "x:web:u1:two"; CallClose;
   Forward; Forward; Published "x:app:u2:three"; Published "not a message";
   Forward; CallClose; Forward; Forward; Receive; SubChanClosed; Forward].

(** The queue behind [C] is only ever closed by the forwarding
    goroutine itself, when it returns. *)
Definition c_inv {Q : Type} (l : LogListener Q) : Prop :=
  c_closed l = true → forwarder l = LReturned.

(** ** [notify] *)

(** What the queue package answers during one call of [notify]:
    [queue.Factory()], [factory.PubSub(...)], and each [pubSubQ.Pub] in
    turn ([nil] once the list is used up). *)
Record queue_answers : Type := mkAnswers {
  factory_err : option error;
  pubsub_err : option error;
  pub_errs : list (option error)
}.

(** One call of [pubSubQ.Pub]: the topic, the bytes, the result. *)
Record pub_call : Type := mkPub {
  pub_topic : string;
  pub_bytes : string;
  pub_err : option error
}.

Section notify.
(** [json.Marshal] of an entry. *)
Variable marshal : Applog → string + error.

(** The loop of [notify] over [messages]: the [Pub] calls made and the
    lines given to [log.Errorf], both in order. *)
Fixpoint notify_loop (topic : string) (messages : list Applog)
    (pubs : list (option error)) : list pub_call * list string :=
  match messages with
  | [] => ([], [])
  | msg :: messages' =>
      match marshal msg with
      | inr err =>
          let '(calls, log) := notify_loop topic messages' pubs in
          (calls, ("Error on logs notify: " +:+ err) :: log)
      | inl bytes =>
          let r := hd None pubs in
          let '(calls, log) := notify_loop topic messages' (tl pubs) in
          (mkPub topic bytes r :: calls,
           match r with
           | Some err => ("Error on logs notify: " +:+ err) :: log
           | None => log
           end)
      end
  end.

Definition notify (answers : queue_answers) (appName : string)
    (messages : list Applog) : list pub_call * list string :=
  match factory_err answers with
  | Some err => ([], ["Error on logs notify: " +:+ err])
  | None =>
      match pubsub_err answers with
      | Some err => ([], ["Error on logs notify: " +:+ err])
      | None => notify_loop (logQueueName appName) messages (pub_errs answers)
      end
  end.

(** The messages that marshal, as bytes, in order. *)
Definition marshalled (messages : list Applog) : list string :=
  omap (λ msg, match marshal msg with inl bytes => Some bytes | inr _ => None end)
       messages.
End notify.

(** The bytes that reached the topic: the calls that returned nil. *)
Definition on_topic (calls : list pub_call) : list string :=
  omap (λ p, match pub_err p with None => Some (pub_bytes p) | Some _ => None end)
       calls.

(** ** Calls on a dispatcher *)

(** What happens to a dispatcher: its owner calls [Send] or [Stop], or a
    goroutine of one of its pipelines moves. *)
Inductive call : Type :=
| CallSend (pre : list sched) (sel : select_case) (msg : Applog)
| CallStop (order : list (string * list sched))
| Goroutine (name : string) (s : sched).

Definition call_step (cl : call) (d : logDispatcher) : outcome logDispatcher :=
  match cl with
  | CallSend pre sel msg => '(_, d') ← Send pre sel msg d; Returns d'
  | CallStop order => '(_, d') ← Stop order d; Returns d'
  | Goroutine name s => background name s d
  end.

Fixpoint calls_run (cls : list call) (d : logDispatcher) : outcome logDispatcher :=
  match cls with
  | [] => Returns d
  | cl :: cls' => d' ← call_step cl d; calls_run cls' d'
  end.

(** The part of a call that is about the application [name]. *)
Definition about (name : string) (cl : call) : option call :=
  match cl with
  | CallSend pre sel msg =>
      if decide (AppName msg = name) then Some cl else None
  | CallStop order => Some (CallStop (filter (λ o, o.1 = name) order))
  | Goroutine n s => if decide (n = name) then Some cl else None
  end.

(** ** Further invariants *)

(** The queue never holds more than its capacity. *)
Definition queue_bound (d : appLogDispatcher) : Prop :=
  (length (msgCh d) ≤ msgCh_capacity)%nat.

(** The flusher is out of its loop for good. *)
Definition flusher_dead (d : appLogDispatcher) : Prop :=
  flusher d = FReturned ∨ ∃ err, flusher d = FErrCh err.

(** Until [bulkMaxWaitTime] has passed since the pipeline was created
    the timer has not fired, so every insert so far was a full buffer. *)
Definition young_inv (d : appLogDispatcher) : Prop :=
  0 ≤ clock d
  ∧ (∀ w, when (t d) = Some w → bulkMaxWaitTime ≤ w)
  ∧ (C (t d) = true → bulkMaxWaitTime ≤ clock d)
  ∧ (clock d < bulkMaxWaitTime →
       Forall (λ batch, length batch = 100%nat) (inserted d)
       ∧ (flusher d = FInsert → len (bulkBuffer d) = cap (bulkBuffer d))).

(** What the consumer has taken from [C] during a run. *)
Fixpoint received {Q : Type} (unmarshal : string → Applog + error)
    (UnSub : Q → call_result * Q) (gosyntax : string → string)
    (evs : list listener_event) (l : LogListener Q) : list Applog :=
  match evs with
  | [] => []
  | ev :: evs' =>
      match listener_step unmarshal UnSub gosyntax ev l with
      | Returns l' =>
          match ev, c l with
          | Receive, applog :: _ => [applog]
          | _, _ => []
          end ++ received unmarshal UnSub gosyntax evs' l'
      | _ => []
      end
  end.

(** The lines the forwarding goroutine logs for a list of messages. *)
Definition ignored_lines (unmarshal : string → Applog + error)
    (msgs : list string) : list string :=
  omap (λ msg, match unmarshal msg with
               | inr _ => Some ("Unparsable log message, ignoring: " +:+ msg)
               | inl _ => None
               end) msgs.

(** What keeps the forwarding goroutine's bookkeeping together: the
    queue behind [C] is within its capacity, one [recover()] is deferred
    per entry sent or about to be, and the goroutine has returned only
    from a closed and drained subscription, closing [C]. *)
Definition forwarder_inv {Q : Type} (l : LogListener Q) : Prop :=
  (length (c l) ≤ c_capacity)%nat
  ∧ recovers l = length (delivered l ++ in_flight l)
  ∧ (forwarder l = LReturned →
       subChan l = [] ∧ subChan_closed l = true ∧ c_closed l = true)
  ∧ (c_closed l = true → forwarder l = LReturned).

(** [dn] holds of [d] exactly what is about the application [name]:
    its pipeline in the routing table, and its retired pipelines. *)
Definition same_app (name : string) (d dn : logDispatcher) : Prop :=
  (∀ n, dispatchers dn !! n
        = if decide (n = name) then dispatchers d !! n else None)
  ∧ filter (λ p, appName p = name) (retired dn)
    = filter (λ p, appName p = name) (retired d).

(** A stand-in for [json.Marshal], the counterpart of [sample_unmarshal];
    an entry without a message does not marshal. *)
Definition sample_marshal (a : Applog) : string + error :=
  if String.eqb (Message a) "" then inr "unsupported value"
  else inl (AppName a +:+ ":" +:+ Source a +:+ ":" +:+ Unit a +:+ ":" +:+ Message a).

(** Three entries of application x notified together; the second does
    not marshal, and the queue refuses the third. *)
Definition sample_messages : list Applog :=
  [mkApplog 0 "one" "app" "x" "u1"; mkApplog 0 "" "app" "x" "u1";
   mkApplog 0 "three" "web" "x" "u2"].

Definition flaky_queue : queue_answers :=
  {| factory_err := None; pubsub_err := None;
     pub_errs := [None; Some "connection reset"] |}.

Definition healthy_queue : queue_answers :=
  {| factory_err := None; pubsub_err := None; pub_errs := [] |}.

Definition good_messages : list Applog :=
  [mkApplog 0 "one" "app" "x" "u1"; mkApplog 0 "two" "web" "x" "u1";
   mkApplog 0 "three" "app" "x" "u2"].

(** * Properties *)

(** ** The pipeline *)

Ltac inv_step H :=
  unfold event_step, step, runDBWriter, runFlusher, send_msgCh, close_msgCh,
    recv_errCh, recv_C, expire in H;
  repeat (simplify_eq/=; try case_match);
  simplify_eq/=.

Lemma history_step ev d d' :
  event_step ev d = Returns d' →
  history d' = history d ++ match ev with Enqueue msg => [msg] | _ => [] end.
Proof.
  intros H. destruct d as [n q qc w f tm [bi bc] ck nt ins].
  unfold history, in_handoff. inv_step H; simpl;
    rewrite ?concat_app, ?app_nil_r, <- ?app_assoc; simpl;
    rewrite ?app_nil_r; try reflexivity.
Qed.

Lemma history_run evs : ∀ d d',
  events_run evs d = Returns d' → history d' = history d ++ sent evs.
Proof.
  induction evs as [|ev evs IH]; intros d d' H; simpl in H.
  - simplify_eq. by rewrite app_nil_r.
  - destruct (event_step ev d) as [d1| |] eqn:E; simplify_eq/=.
    rewrite (IH _ _ H), (history_step _ _ _ E), <- app_assoc.
    f_equal. unfold sent. by destruct ev.
Qed.

Lemma buffer_inv_new name : buffer_inv (newAppLogDispatcher name).
Proof.
  unfold buffer_inv, len; simpl.
  repeat split; intros; auto; try lia; try discriminate.
Qed.

Ltac use_guards :=
  repeat match goal with
    | H : ?a = ?a → _ |- _ => specialize (H eq_refl)
    | H : ?a = ?b → _ |- _ => assert (a ≠ b) by discriminate; clear H
    | H : _ ∧ _ |- _ => destruct H
    | H : (_ =? _)%nat = true |- _ => apply Nat.eqb_eq in H
    | H : (_ =? _)%nat = false |- _ => apply Nat.eqb_neq in H
    | H : (_ <? _)%nat = true |- _ => apply Nat.ltb_lt in H
    | H : (_ <? _)%nat = false |- _ => apply Nat.ltb_ge in H
    end.

Lemma buffer_inv_step ev d d' :
  buffer_inv d → event_step ev d = Returns d' → buffer_inv d'.
Proof.
  intros (Hc & Hl & H0 & Hs & Hi & Hb) H.
  destruct d as [n q qc w f tm [bi bc] ck nt ins].
  unfold buffer_inv, len in *; simpl in *. subst bc.
  inv_step H; simpl in *.
  all: repeat split; intros; simplify_eq/=; use_guards.
  all: unfold len, append in *; simpl in *.
  all: rewrite ?length_app in *; simpl in *; subst; simpl; auto; try lia.
  all: rewrite Forall_app, Forall_singleton; split; [assumption | lia].
Qed.

Lemma buffer_inv_run evs : ∀ d d',
  buffer_inv d → events_run evs d = Returns d' → buffer_inv d'.
Proof.
  induction evs as [|ev evs IH]; intros d d' Hinv H; simpl in H.
  - by simplify_eq.
  - destruct (event_step ev d) as [d1| |] eqn:E; simplify_eq/=.
    eauto using buffer_inv_step.
Qed.

(** C3: from a new pipeline, after any run, when the flusher accepts an
    entry from the writer it goes on to [coll.Insert] exactly when that
    entry is the 100th of the buffer; this is decided in the same step,
    whatever the state of the timer, the insert is then ready to run and
    it takes exactly those 100 entries.  No stored batch has more than
    100 entries. *)
Theorem size_flush_at_100 name evs d d' :
  events_run evs (newAppLogDispatcher name) = Returns d →
  runFlusher EvToFlush d = Returns d' →
  ∃ msg,
    writer d = WToFlush msg
    ∧ items (bulkBuffer d') = items (bulkBuffer d) ++ [msg]
    ∧ (flusher d' = FInsert ↔ len (bulkBuffer d') = 100%nat)
    ∧ (flusher d' = FSelect ↔ (len (bulkBuffer d') < 100)%nat)
    ∧ (flusher d' = FInsert →
         insert_args d' = Some (items (bulkBuffer d) ++ [msg])
         ∧ length (items (bulkBuffer d) ++ [msg]) = 100%nat
         ∧ t d' = t d
         ∧ ∀ r, ∃ d'', runFlusher (EvInsert r) d' = Returns d''
             ∧ (r = None →
                  inserted d'' = inserted d ++ [items (bulkBuffer d) ++ [msg]]
                  ∧ items (bulkBuffer d'') = []))
    ∧ Forall (λ batch, (length batch ≤ 100)%nat) (inserted d').
Proof.
  intros Hrun H.
  pose proof (buffer_inv_run _ _ _ (buffer_inv_new name) Hrun) as Hinv.
  assert (Hinv' : buffer_inv d').
  { apply (buffer_inv_step (Task (Flusher EvToFlush)) d d' Hinv H). }
  destruct Hinv as (Hc & Hl & H0 & Hs & Hi & Hb).
  destruct Hinv' as (Hc' & Hl' & H0' & Hs' & Hi' & Hb').
  destruct d as [n q qc w f tm [bi bc] ck nt ins].
  unfold len in *; simpl in *. subst bc.
  unfold runFlusher in H; simpl in H.
  destruct f; try discriminate. destruct w as [|msg|]; try discriminate.
  exists msg. specialize (Hs eq_refl).
  unfold len, append, insert_args in *; simpl in *.
  assert (Hlt : (length bi <? 100)%nat = true) by (apply Nat.ltb_lt; lia).
  rewrite Hlt in H. rewrite length_app in *. simpl in *.
  destruct (length bi + 1 =? 100)%nat eqn:E; simplify_eq/=.
  - apply Nat.eqb_eq in E. rewrite length_app; simpl.
    repeat split; auto; try lia; try discriminate.
    + intros [err|]; eexists; (split; [reflexivity|]); intros; simplify_eq/=; auto.
    + eapply Forall_impl; [exact Hb|]. simpl; lia.
  - apply Nat.eqb_neq in E. rewrite length_app; simpl.
    repeat split; auto; try lia; try discriminate.
    eapply Forall_impl; [exact Hb|]. simpl; lia.
Qed.

Lemma size_flush_at_100_witness :
  let d := after hundredth_pending (newAppLogDispatcher "x") in
  let d' := after [Task (Flusher EvToFlush)] d in
  events_run hundredth_pending (newAppLogDispatcher "x") = Returns d
  ∧ runFlusher EvToFlush d = Returns d'
  ∧ flusher d' = FInsert
  ∧ ∃ msg,
      writer d = WToFlush msg
      ∧ items (bulkBuffer d') = items (bulkBuffer d) ++ [msg]
      ∧ (flusher d' = FInsert ↔ len (bulkBuffer d') = 100%nat)
      ∧ (flusher d' = FSelect ↔ (len (bulkBuffer d') < 100)%nat)
      ∧ (flusher d' = FInsert →
           insert_args d' = Some (items (bulkBuffer d) ++ [msg])
           ∧ length (items (bulkBuffer d) ++ [msg]) = 100%nat
           ∧ t d' = t d
           ∧ ∀ r, ∃ d'', runFlusher (EvInsert r) d' = Returns d''
               ∧ (r = None →
                    inserted d'' = inserted d ++ [items (bulkBuffer d) ++ [msg]]
                    ∧ items (bulkBuffer d'') = []))
      ∧ Forall (λ batch, (length batch ≤ 100)%nat) (inserted d').
Proof.
  intros d d'.
  split; [vm_compute; reflexivity|].
  split; [vm_compute; reflexivity|].
  split; [vm_compute; reflexivity|].
  apply (size_flush_at_100 "x" hundredth_pending d d').
  - vm_compute; reflexivity.
  - vm_compute; reflexivity.
Defined.

(** C4, as stated, fails: the entry that fills the buffer is accepted
    without [t.Reset].  Here the 100th entry is accepted 200ms after the
    99th; the timer still expires 500ms after the 99th, not 500ms after
    the 100th. *)
Lemma filling_entry_leaves_timer :
  let d := after hundredth_pending_later (newAppLogDispatcher "x") in
  let d' := after [Task (Flusher EvToFlush)] d in
  events_run hundredth_pending_later (newAppLogDispatcher "x") = Returns d
  ∧ clock d = 200 * Millisecond
  ∧ runFlusher EvToFlush d = Returns d'
  ∧ items (bulkBuffer d') = entries 100
  ∧ when (t d') = Some (500 * Millisecond)
  ∧ t d' ≠ Reset (clock d) bulkMaxWaitTime (t d).
Proof.
  intros d d'.
  split; [vm_compute; reflexivity|].
  split; [vm_compute; reflexivity|].
  split; [vm_compute; reflexivity|].
  split; [vm_compute; reflexivity|].
  split; [vm_compute; reflexivity|].
  vm_compute. discriminate.
Qed.

(** C4, amended: after any run of a new pipeline, accepting an entry
    resets the timer to 500ms from now exactly when the entry does not
    fill the buffer (the filling entry goes to the insert and leaves the
    timer as it is); receiving an expiry with a non-empty buffer leads to
    one insert of exactly the buffered entries, which empties the buffer
    and does not restart the timer; receiving an expiry with an empty
    buffer changes nothing but the timer's channel.  One entry followed
    by 500ms of idleness gives one stored batch of that entry, and not
    before the 500ms have passed. *)
Theorem idle_timer_flush name evs d :
  events_run evs (newAppLogDispatcher name) = Returns d →
  (∀ d', runFlusher EvToFlush d = Returns d' →
     ((len (bulkBuffer d') < 100)%nat →
        t d' = Reset (clock d) bulkMaxWaitTime (t d) ∧ flusher d' = FSelect)
     ∧ (len (bulkBuffer d') = 100%nat → t d' = t d ∧ flusher d' = FInsert)
     ∧ (len (bulkBuffer d') ≤ 100)%nat)
  ∧ (∀ d', runFlusher EvTimer d = Returns d' →
       C (t d) = true ∧ C (t d') = false ∧ when (t d') = when (t d)
       ∧ bulkBuffer d' = bulkBuffer d ∧ inserted d' = inserted d
       ∧ (items (bulkBuffer d) = [] → flusher d' = FSelect)
       ∧ (items (bulkBuffer d) ≠ [] →
            insert_args d' = Some (items (bulkBuffer d))
            ∧ ∃ d'', runFlusher (EvInsert None) d' = Returns d''
                ∧ inserted d'' = inserted d ++ [items (bulkBuffer d)]
                ∧ items (bulkBuffer d'') = []
                ∧ flusher d'' = FSelect
                ∧ t d'' = t d'))
  ∧ (∀ e,
       let d1 := after [Enqueue e; connect; Task Writer; Task (Flusher EvToFlush)]
                   (newAppLogDispatcher name) in
       events_run [Task (Elapse (bulkMaxWaitTime - 1)); Task Expire] d1 = Stuck
       ∧ ∃ d2, events_run [Task (Elapse bulkMaxWaitTime); Task Expire;
                           Task (Flusher EvTimer); Task (Flusher (EvInsert None))] d1
               = Returns d2
           ∧ inserted d2 = [[e]] ∧ items (bulkBuffer d2) = []
           ∧ t d2 = {| when := None; C := false |}).
Proof.
  intros Hrun.
  pose proof (buffer_inv_run _ _ _ (buffer_inv_new name) Hrun) as Hinv.
  split; [|split].
  - intros d' H.
    destruct Hinv as (Hc & Hl & H0 & Hs & Hi & Hb).
    destruct d as [n q qc w f tm [bi bc] ck nt ins].
    unfold len in *; simpl in *. subst bc.
    unfold runFlusher in H; simpl in H.
    destruct f; try discriminate. destruct w as [|msg|]; try discriminate.
    specialize (Hs eq_refl).
    unfold len, append in H; simpl in H.
    assert (Hlt : (length bi <? 100)%nat = true) by (apply Nat.ltb_lt; lia).
    rewrite Hlt in H. rewrite length_app in H; simpl in H.
    destruct (length bi + 1 =? 100)%nat eqn:E; simplify_eq/=;
      rewrite length_app; simpl.
    + apply Nat.eqb_eq in E. repeat split; auto; lia.
    + apply Nat.eqb_neq in E. repeat split; auto; lia.
  - intros d' H.
    destruct d as [n q qc w f [tw tc] [bi bc] ck nt ins].
    unfold runFlusher, recv_C in H; simpl in H.
    destruct f; try discriminate. destruct tc; try discriminate.
    unfold len, insert_args in *; simpl in *.
    destruct bi as [|b bi]; simpl in H; simplify_eq/=.
    + do 6 (split; [done|]). intros E; by destruct E.
    + do 5 (split; [done|]). split; [discriminate|].
      intros _. split; [reflexivity|]. eexists. split; [reflexivity|].
      simpl. auto.
  - intros e d1. subst d1. split; [vm_compute; reflexivity|].
    eexists. split; [vm_compute; reflexivity|]. simpl. auto.
Qed.

Lemma idle_timer_flush_witness :
  let d := after hundredth_pending_later (newAppLogDispatcher "x") in
  events_run hundredth_pending_later (newAppLogDispatcher "x") = Returns d
  ∧ ∀ d', runFlusher EvToFlush d = Returns d' →
      ((len (bulkBuffer d') < 100)%nat →
         t d' = Reset (clock d) bulkMaxWaitTime (t d) ∧ flusher d' = FSelect)
      ∧ (len (bulkBuffer d') = 100%nat → t d' = t d ∧ flusher d' = FInsert)
      ∧ (len (bulkBuffer d') ≤ 100)%nat.
Proof.
  intros d.
  split; [vm_compute; reflexivity|].
  refine (proj1 (idle_timer_flush "x" hundredth_pending_later d _)).
  vm_compute; reflexivity.
Defined.

(** X1: What is stored is a prefix of what was sent, in the same order. *)
Lemma stored_prefix_of_sent name evs d :
  events_run evs (newAppLogDispatcher name) = Returns d →
  concat (inserted d) `prefix_of` sent evs.
Proof.
  intros H. apply history_run in H. unfold history in H. simpl in H.
  rewrite <- H. by eexists.
Qed.

Lemma queue_inv_step ev d d' :
  queue_inv d → event_step ev d = Returns d' → queue_inv d'.
Proof.
  unfold queue_inv. intros Hq H.
  destruct d as [n q qc w f tm [bi bc] ck nt ins]; simpl in *.
  inv_step H; simpl in *; intros; simplify_eq; auto;
    try (destruct Hq as [? ?]; [done|]; simplify_eq; done).
Qed.

Lemma queue_inv_run evs : ∀ d d',
  queue_inv d → events_run evs d = Returns d' → queue_inv d'.
Proof.
  induction evs as [|ev evs IH]; intros d d' Hinv H; simpl in H.
  - by simplify_eq.
  - destruct (event_step ev d) as [d1| |] eqn:E; simplify_eq/=.
    eauto using queue_inv_step.
Qed.

(** X2: Once both goroutines have returned, what was sent and is not stored
    is what the flusher still had in its buffer: fewer than 100 entries,
    which nothing will insert. *)
Lemma returned_pipeline_accounting name evs d :
  events_run evs (newAppLogDispatcher name) = Returns d →
  writer d = WDone →
  sent evs = concat (inserted d) ++ items (bulkBuffer d)
  ∧ (len (bulkBuffer d) ≤ 100)%nat.
Proof.
  intros H Hw.
  pose proof (history_run _ _ _ H) as Hh.
  pose proof (buffer_inv_run _ _ _ (buffer_inv_new name) H) as (_ & Hl & _).
  assert (Hq : queue_inv (newAppLogDispatcher name)) by (intros ?; discriminate).
  destruct (queue_inv_run _ _ _ Hq H Hw) as [Hm _].
  unfold history, in_handoff in Hh. rewrite Hw, Hm in Hh. simpl in Hh.
  rewrite !app_nil_r in Hh. auto.
Qed.

(** C1 fails on the code: one entry is sent, [Stop] closes the queue, the
    writer hands the entry to the flusher and closes [done], the flusher
    takes the [done] case and returns with the entry still in its
    buffer.  [Stop] returns nil and nothing was stored. *)
Lemma stop_drops_buffered_entry :
  ∃ d1 d2 appD,
    Send [] CaseMsgCh (entry 0) NewlogDispatcher = Returns (None, d1)
    ∧ Stop [("x", drain_one)] d1 = Returns (None, d2)
    ∧ dispatchers d2 = ∅
    ∧ retired d2 = [appD]
    ∧ concat (persisted "x" d2) = []
    ∧ items (bulkBuffer appD) = [entry 0]
    ∧ writer appD = WDone ∧ flusher appD = FReturned.
Proof.
  eexists _, _, _.
  split; [vm_compute; reflexivity|].
  split; [vm_compute; reflexivity|].
  split; [reflexivity|].
  split; [reflexivity|].
  split; [vm_compute; reflexivity|].
  split; [reflexivity|]. split; reflexivity.
Qed.

(** A flusher blocked on [d.errCh <- err] stays there, and the queue
    stays open, whatever the goroutines and the clock do. *)
Lemma failed_stays_failed_step s d d' err :
  flusher d = FErrCh err → step s d = Returns d' →
  flusher d' = FErrCh err ∧ msgCh_closed d' = msgCh_closed d
  ∧ inserted d' = inserted d ∧ bulkBuffer d' = bulkBuffer d.
Proof.
  intros Hf H. destruct d as [n q qc w f tm [bi bc] ck nt ins]; simpl in *.
  subst f. destruct s as [|ev|dt|]; [ | destruct ev as [[e|]| | | |[e|]] | | ];
    inv_step H; auto.
Qed.

Lemma failed_stays_failed ss : ∀ d d' err,
  flusher d = FErrCh err → run ss d = Returns d' →
  flusher d' = FErrCh err ∧ msgCh_closed d' = msgCh_closed d
  ∧ inserted d' = inserted d ∧ bulkBuffer d' = bulkBuffer d.
Proof.
  induction ss as [|s ss IH]; intros d d' err Hf H; simpl in H.
  - by simplify_eq.
  - destruct (step s d) as [d1| |] eqn:E; simplify_eq/=.
    destruct (failed_stays_failed_step _ _ _ _ Hf E) as (Hf1 & Hc1 & Hi1 & Hb1).
    destruct (IH _ _ _ Hf1 H) as (? & ? & ? & ?).
    repeat split; congruence.
Qed.

(** The goroutines of a pipeline never panic. *)
Lemma step_never_panics s d reason : step s d ≠ Panics reason.
Proof.
  intros H. destruct d as [n q qc w f tm [bi bc] ck nt ins].
  destruct s as [|ev|dt|]; [ | destruct ev as [[e|]| | | |[e|]] | | ];
    inv_step H.
Qed.

Lemma run_never_panics ss : ∀ d reason, run ss d ≠ Panics reason.
Proof.
  induction ss as [|s ss IH]; intros d reason H; simpl in H; [discriminate|].
  destruct (step s d) as [d1| |] eqn:E; simplify_eq/=.
  - by apply IH in H.
  - by apply step_never_panics in E.
Qed.

(** C2, as stated, fails: after the failed insert the next [Send] for x
    takes the queue case of its [select], returns nil and leaves the
    entry in the queue of the failed pipeline, which stays in the routing
    table; no [Send] has returned the error, [Stop] gets it. *)
Lemma send_after_failure_may_enqueue :
  ∃ d appD d' d'',
    after_insert_failure = Returns d
    ∧ dispatchers d !! "x" = Some appD
    ∧ flusher appD = FErrCh "boom"
    ∧ Send [] CaseMsgCh (entry 1) d = Returns (None, d')
    ∧ dispatchers d' !! "x" = Some (set_msgCh [entry 1] appD)
    ∧ set_msgCh [entry 1] appD ≠ set_msgCh [entry 1] (newAppLogDispatcher "x")
    ∧ Stop [("x", [])] d' = Returns (Some "boom", d'').
Proof.
  eexists _, _, _, _.
  split; [vm_compute; reflexivity|].
  split; [vm_compute; reflexivity|].
  split; [reflexivity|].
  split; [vm_compute; reflexivity|].
  split; [vm_compute; reflexivity|].
  split; [vm_compute; discriminate|].
  vm_compute; reflexivity.
Qed.

(** C2, amended: while a pipeline in the routing table holds the error
    of a failed insert, a [Send] for its application that takes the error
    case returns that error, closes the pipeline and removes it from the
    table, and the [Send] after it starts from a brand-new pipeline; a
    [Send] that takes the queue case, possible while the queue has room,
    returns nil and leaves the entry with the failed pipeline; with a
    full queue only the error case is ready.  No [Send] has any other
    outcome, and none panics.  If [Stop] gets to the pipeline first, it
    is [Stop] that receives the error. *)
Theorem send_on_failed_pipeline name err appD d msg :
  dispatchers d !! name = Some appD →
  flusher appD = FErrCh err →
  msgCh_closed appD = false →
  AppName msg = name →
  let gone := mkLogD (delete name (dispatchers d))
                (retired d ++ [set_msgCh_closed true (set_flusher FReturned appD)]) in
  Send [] CaseErrCh msg d = Returns (Some err, gone)
  ∧ (∀ msg', AppName msg' = name →
       Send [] CaseMsgCh msg' gone =
       Returns (None, mkLogD (<[name := set_msgCh [msg'] (newAppLogDispatcher name)]>
                                (dispatchers gone)) (retired gone)))
  ∧ ((length (msgCh appD) < msgCh_capacity)%nat →
       Send [] CaseMsgCh msg d =
       Returns (None, mkLogD (<[name := set_msgCh (msgCh appD ++ [msg]) appD]>
                                (dispatchers d)) (retired d)))
  ∧ ((msgCh_capacity ≤ length (msgCh appD))%nat →
       Send [] CaseMsgCh msg d = Stuck)
  ∧ (∀ pre sel r d', Send pre sel msg d = Returns (r, d') →
       (sel = CaseErrCh ∧ r = Some err ∧ dispatchers d' !! name = None)
       ∨ (sel = CaseMsgCh ∧ r = None
          ∧ ∃ appD', dispatchers d' !! name = Some appD'
              ∧ flusher appD' = FErrCh err ∧ inserted appD' = inserted appD))
  ∧ (∀ pre sel reason, Send pre sel msg d ≠ Panics reason)
  ∧ (∀ ss r appD', stop_one ss appD = Returns (r, appD') → r = Some err).
Proof.
  intros Hd Hf Hc Hn gone.
  repeat split.
  - unfold Send. rewrite Hn, Hd. simpl. unfold recv_errCh. rewrite Hf. simpl.
    unfold close_msgCh. simpl. rewrite Hc. reflexivity.
  - intros msg' Hn'. unfold Send. rewrite Hn'. subst gone. simpl.
    rewrite lookup_delete_eq. reflexivity.
  - intros Hlen. unfold Send. rewrite Hn, Hd. simpl. unfold send_msgCh.
    rewrite Hc. apply Nat.ltb_lt in Hlen. rewrite Hlen. reflexivity.
  - intros Hlen. unfold Send. rewrite Hn, Hd. simpl. unfold send_msgCh.
    rewrite Hc. apply Nat.ltb_ge in Hlen. rewrite Hlen. reflexivity.
  - intros pre sel r d' H. unfold Send in H. rewrite Hn, Hd in H.
    destruct (run pre appD) as [appD1| |] eqn:E; simplify_eq/=.
    destruct (failed_stays_failed _ _ _ _ Hf E) as (Hf1 & Hc1 & Hi1 & _).
    destruct sel.
    + right. unfold send_msgCh in H. rewrite Hc1, Hc in H.
      destruct (_ <? _)%nat; simplify_eq/=.
      repeat split; auto. eexists. rewrite lookup_insert_eq. split; [done|].
      simpl. auto.
    + left. unfold recv_errCh in H. rewrite Hf1 in H. simpl in H.
      unfold close_msgCh in H. simpl in H. rewrite Hc1, Hc in H. simplify_eq/=.
      repeat split; auto. apply lookup_delete_eq.
  - intros pre sel reason H. unfold Send in H. rewrite Hn, Hd in H.
    destruct (run pre appD) as [appD1| |] eqn:E; simplify_eq/=.
    + destruct (failed_stays_failed _ _ _ _ Hf E) as (Hf1 & Hc1 & _).
      destruct sel.
      * unfold send_msgCh in H. rewrite Hc1, Hc in H.
        destruct (_ <? _)%nat; simplify_eq/=.
      * unfold recv_errCh in H. rewrite Hf1 in H. simpl in H.
        unfold close_msgCh in H. simpl in H. rewrite Hc1, Hc in H. simplify_eq/=.
    + by apply run_never_panics in E.
  - intros ss r appD' H.
    unfold stop_one, close_msgCh in H. rewrite Hc in H. simpl in H.
    destruct (run ss _) as [d2| |] eqn:E2; simplify_eq/=.
    apply (failed_stays_failed _ _ _ err) in E2 as (Hf2 & _); [|done].
    unfold recv_errCh in H. rewrite Hf2 in H. by simplify_eq.
Qed.

Lemma send_on_failed_pipeline_witness :
  ∃ appD,
    dispatchers failed_dispatcher !! "x" = Some appD
    ∧ flusher appD = FErrCh "boom"
    ∧ Send [] CaseErrCh (entry 1) failed_dispatcher =
      Returns (Some "boom",
               mkLogD (delete "x" (dispatchers failed_dispatcher))
                 (retired failed_dispatcher
                  ++ [set_msgCh_closed true (set_flusher FReturned appD)])).
Proof.
  eexists. split; [vm_compute; reflexivity|]. split; [reflexivity|].
  refine (proj1 (send_on_failed_pipeline "x" "boom" _ failed_dispatcher (entry 1)
                   _ _ _ _)).
  - vm_compute; reflexivity.
  - reflexivity.
  - reflexivity.
  - reflexivity.
Defined.

(** ** [Stop] *)

Lemma string_app_assoc (s1 s2 s3 : string) :
  (s1 +:+ s2) +:+ s3 = s1 +:+ s2 +:+ s3.
Proof.
  induction s1 as [|a s1 IH]; [reflexivity|].
  change (String a (s1 +:+ s2 +:+ s3)) with (String a s1 +:+ s2 +:+ s3) in *.
  change (String a ((s1 +:+ s2) +:+ s3) = String a (s1 +:+ s2 +:+ s3)).
  by rewrite IH.
Qed.

Lemma string_app_nil_r (s : string) : s +:+ "" = s.
Proof.
  induction s as [|a s IH]; [reflexivity|].
  change (String a (s +:+ "") = String a s). by rewrite IH.
Qed.

Lemma mentions_refl e : mentions e e.
Proof. exists "", "". by rewrite string_app_nil_r. Qed.

Lemma mentions_join_l e f e' : mentions e f → mentions e (f +:+ ", " +:+ e').
Proof.
  intros (b & a & ->). exists b, (a +:+ ", " +:+ e').
  by rewrite !string_app_assoc.
Qed.

Lemma mentions_join_r f e : mentions e (f +:+ ", " +:+ e).
Proof.
  exists (f +:+ ", "), "". by rewrite string_app_nil_r, string_app_assoc.
Qed.

Lemma concat_join (a b : string) (l : list string) :
  String.concat ", " ((a +:+ ", " +:+ b) :: l) = String.concat ", " (a :: b :: l).
Proof.
  destruct l as [|x l]; [reflexivity|].
  change (((a +:+ ", " +:+ b) +:+ ", " +:+ String.concat ", " (x :: l))
          = a +:+ ", " +:+ b +:+ ", " +:+ String.concat ", " (x :: l)).
  by rewrite !string_app_assoc.
Qed.

(** The loop's accumulator is the ", "-separated list of the errors
    received so far. *)
Lemma foldl_join_err_Some errs : ∀ f,
  foldl join_err (Some f) errs = Some (String.concat ", " (f :: omap id errs)).
Proof.
  induction errs as [|[e|] errs IH]; intros f.
  - reflexivity.
  - simpl foldl. rewrite IH. simpl omap. by rewrite concat_join.
  - simpl foldl. by rewrite IH.
Qed.

Lemma foldl_join_err errs :
  foldl join_err None errs = report (omap id errs).
Proof.
  induction errs as [|[e|] errs IH].
  - reflexivity.
  - simpl foldl. by rewrite foldl_join_err_Some.
  - simpl foldl. by rewrite IH.
Qed.

Lemma foldl_join_err_keeps errs : ∀ f e,
  mentions e f →
  ∃ text, foldl join_err (Some f) errs = Some text ∧ mentions e text.
Proof.
  induction errs as [|[e'|] errs IH]; intros f e H; simpl; eauto.
  apply IH. by apply mentions_join_l.
Qed.

Lemma foldl_join_err_mentions errs : ∀ acc e,
  Some e ∈ errs →
  ∃ text, foldl join_err acc errs = Some text ∧ mentions e text.
Proof.
  induction errs as [|err errs IH]; intros acc e H.
  - by apply elem_of_nil in H.
  - apply elem_of_cons in H as [<-|H]; [|by apply IH].
    simpl. destruct acc as [f|]; simpl.
    + apply foldl_join_err_keeps, mentions_join_r.
    + apply foldl_join_err_keeps, mentions_refl.
Qed.

Lemma step_keeps_closed s d d' :
  step s d = Returns d' →
  msgCh_closed d' = msgCh_closed d ∧ appName d' = appName d.
Proof.
  intros H. destruct d as [n q qc w f tm [bi bc] ck nt ins].
  destruct s as [|ev|dt|]; [ | destruct ev as [[e|]| | | |[e|]] | | ];
    inv_step H; auto.
Qed.

Lemma run_keeps_closed ss : ∀ d d',
  run ss d = Returns d' →
  msgCh_closed d' = msgCh_closed d ∧ appName d' = appName d.
Proof.
  induction ss as [|s ss IH]; intros d d' H; simpl in H.
  - by simplify_eq.
  - destruct (step s d) as [d1| |] eqn:E; simplify_eq/=.
    destruct (step_keeps_closed _ _ _ E) as [? ?].
    destruct (IH _ _ H) as [? ?]. split; congruence.
Qed.

(** A pipeline [Stop] is done with has a closed queue and a returned
    flusher. *)
Lemma stop_one_stopped ss appD err appD' :
  stop_one ss appD = Returns (err, appD') →
  msgCh_closed appD' = true ∧ flusher appD' = FReturned
  ∧ appName appD' = appName appD.
Proof.
  unfold stop_one, close_msgCh. intros H.
  destruct (msgCh_closed appD) eqn:Hc; simplify_eq/=.
  destruct (run ss _) as [d1| |] eqn:E; simplify_eq/=.
  apply run_keeps_closed in E as [Hc1 Hn1]. simpl in *.
  unfold recv_errCh in H. destruct d1 as [n q qc w f tm b ck nt ins].
  simpl in *. destruct f; simplify_eq/=; auto.
Qed.

Lemma Stop_from_spec order : ∀ finalErr d r d',
  Stop_from order finalErr d = Returns (r, d') →
  dispatchers d' = ∅
  ∧ ∃ results : list (option error * appLogDispatcher),
      Forall2 (λ o res, ∃ appD, dispatchers d !! o.1 = Some appD
                                ∧ stop_one o.2 appD = Returns res)
              order results
      ∧ NoDup order.*1
      ∧ (∀ name, name ∈ order.*1 ↔ is_Some (dispatchers d !! name))
      ∧ retired d' = retired d ++ results.*2
      ∧ r = foldl join_err finalErr results.*1.
Proof.
  induction order as [|[name ss] order IH]; intros finalErr d r d' H; simpl in H.
  - destruct (decide _) as [Hdom|]; simplify_eq/=.
    apply dom_empty_inv_L in Hdom. split; [done|].
    exists []. repeat split; simpl.
    + constructor.
    + constructor.
    + intros Hin. by apply elem_of_nil in Hin.
    + rewrite Hdom, lookup_empty. by intros [? ?].
    + by rewrite app_nil_r.
  - destruct (dispatchers d !! name) as [appD|] eqn:Hd; simplify_eq/=.
    destruct (stop_one ss appD) as [[err appD']| |] eqn:E; simplify_eq/=.
    apply IH in H as (Hempty & results & HF & Hnd & Hdom & Hret & Hr).
    simpl in *. split; [done|].
    exists ((err, appD') :: results). repeat split; simpl.
    + constructor; [eauto|].
      eapply Forall2_impl; [exact HF|]. simpl.
      intros o res (a & Ha & Hs). exists a. split; [|done].
      by apply lookup_delete_Some in Ha as [_ ?].
    + constructor; [|done]. intros Hin. apply Hdom in Hin as [x Hx].
      by rewrite lookup_delete_eq in Hx.
    + intros Hin. apply elem_of_cons in Hin as [->|Hin]; [eauto|].
      apply Hdom in Hin as [x Hx]. apply lookup_delete_Some in Hx as [_ Hx]. eauto.
    + intros [x Hx]. destruct (decide (name0 = name)) as [->|Hne].
      * apply elem_of_cons; auto.
      * apply elem_of_cons; right. apply Hdom. exists x.
        by rewrite lookup_delete_ne.
    + by rewrite Hret, <- app_assoc.
    + done.
Qed.

(** What [Stop] has done when it returns. *)
Lemma Stop_result order d r d' :
  Stop order d = Returns (r, d') →
  dispatchers d' = ∅
  ∧ ∃ results : list (option error * appLogDispatcher),
      Forall2 (λ o res, ∃ appD, dispatchers d !! o.1 = Some appD
                                ∧ stop_one o.2 appD = Returns res)
              order results
      ∧ NoDup order.*1
      ∧ (∀ name, name ∈ order.*1 ↔ is_Some (dispatchers d !! name))
      ∧ retired d' = retired d ++ results.*2
      ∧ Forall (λ appD', msgCh_closed appD' = true ∧ flusher appD' = FReturned)
               results.*2
      ∧ r = report (omap id results.*1)
      ∧ (r = None ↔ Forall (λ err, err = None) results.*1)
      ∧ (∀ e, Some e ∈ results.*1 → ∃ text, r = Some text ∧ mentions e text).
Proof.
  intros H. apply Stop_from_spec in H as (Hempty & results & HF & Hnd & Hdom & Hret & Hr).
  split; [done|]. exists results. do 4 (split; [done|]).
  split; [|split; [|split]].
  - clear -HF. induction HF as [|[name ss] [err appD'] order results (a & _ & Hs) _ IH];
      simpl; constructor; auto.
    apply stop_one_stopped in Hs as (? & ? & _). auto.
  - by rewrite Hr, foldl_join_err.
  - rewrite Hr, foldl_join_err. clear.
    induction (results.*1) as [|[e|] errs IH]; simpl.
    + split; [constructor|done].
    + split; [discriminate|]. intros HF. by apply Forall_cons in HF as [? _].
    + rewrite IH. split; [by constructor|]. intros HF. by apply Forall_cons in HF as [_ ?].
  - intros e He. rewrite Hr. by apply foldl_join_err_mentions.
Qed.


(** ** Failure to connect *)

Lemma events_run_app evs1 evs2 d :
  events_run (evs1 ++ evs2) d = (d1 ← events_run evs1 d; events_run evs2 d1).
Proof.
  revert d. induction evs1 as [|ev evs1 IH]; intros d; simpl; [done|].
  destruct (event_step ev d); simpl; auto.
Qed.

Lemma failed_stays_failed_events evs : ∀ d d' err,
  flusher d = FErrCh err → RecvErrCh ∉ evs → events_run evs d = Returns d' →
  flusher d' = FErrCh err ∧ inserted d' = inserted d
  ∧ bulkBuffer d' = bulkBuffer d.
Proof.
  induction evs as [|ev evs IH]; intros d d' err Hf Hno H; simpl in H.
  - by simplify_eq.
  - destruct (event_step ev d) as [d1| |] eqn:E; simplify_eq/=.
    apply not_elem_of_cons in Hno as [Hev Hno].
    assert (flusher d1 = FErrCh err ∧ inserted d1 = inserted d
            ∧ bulkBuffer d1 = bulkBuffer d) as (Hf1 & Hi1 & Hb1).
    { destruct ev as [s|msg| |]; simpl in E.
      - destruct (failed_stays_failed_step _ _ _ _ Hf E) as (? & _ & ? & ?). auto.
      - unfold send_msgCh in E. repeat case_match; simplify_eq/=. auto.
      - unfold close_msgCh in E. repeat case_match; simplify_eq/=. auto.
      - done. }
    destruct (IH _ _ _ Hf1 Hno H) as (? & ? & ?).
    repeat split; congruence.
Qed.

(** C10: if [db.LogConn] fails, which is the flusher's first step
    whatever was sent to the pipeline before and after, the pipeline
    holds that error from then on, and it has neither accepted nor
    stored any entry; whoever receives on its [errCh] next, the error
    case of a [Send] or the [Stop], gets exactly that error. *)
Theorem LogConn_failure_is_stored name err evs1 evs2 d :
  events_run (evs1 ++ Task (Flusher (EvLogConn (Some err))) :: evs2)
             (newAppLogDispatcher name) = Returns d →
  RecvErrCh ∉ evs2 →
  flusher d = FErrCh err
  ∧ inserted d = [] ∧ items (bulkBuffer d) = []
  ∧ recv_errCh d = Returns (Some err, set_flusher FReturned d)
  ∧ (∀ ss r d', stop_one ss d = Returns (r, d') → r = Some err)
  ∧ (∀ dd msg pre r dd',
       dispatchers dd !! name = Some d → AppName msg = name →
       Send pre CaseErrCh msg dd = Returns (r, dd') →
       r = Some err ∧ dispatchers dd' !! name = None)
  ∧ (∀ dd order r dd',
       dispatchers dd !! name = Some d →
       Stop order dd = Returns (r, dd') →
       ∃ text, r = Some text ∧ mentions err text).
Proof.
  intros H Hno. rewrite events_run_app in H.
  destruct (events_run evs1 _) as [d0| |] eqn:E0; simplify_eq/=.
  destruct (runFlusher _ d0) as [d1| |] eqn:E1; simplify_eq/=.
  pose proof (buffer_inv_run _ _ _ (buffer_inv_new name) E0) as (_ & _ & H0 & _).
  assert (flusher d1 = FErrCh err ∧ inserted d1 = [] ∧ items (bulkBuffer d1) = [])
    as (Hf1 & Hi1 & Hb1).
  { destruct d0 as [n q qc w f tm [bi bc] ck nt ins]. simpl in *.
    unfold runFlusher in E1. simpl in E1. destruct f; simplify_eq/=.
    destruct (H0 eq_refl) as [-> ->]. auto. }
  destruct (failed_stays_failed_events _ _ _ _ Hf1 Hno H) as (Hf & Hi & Hb).
  assert (Hstop : ∀ ss r d', stop_one ss d = Returns (r, d') → r = Some err).
  { intros ss r d' Hs. unfold stop_one, close_msgCh in Hs.
    destruct (msgCh_closed d); simplify_eq/=.
    destruct (run ss _) as [d2| |] eqn:E2; simplify_eq/=.
    apply (failed_stays_failed _ _ _ err) in E2 as (Hf2 & _); [|done].
    unfold recv_errCh in Hs. rewrite Hf2 in Hs. by simplify_eq. }
  assert (Hsend : ∀ dd msg pre r dd',
            dispatchers dd !! name = Some d → AppName msg = name →
            Send pre CaseErrCh msg dd = Returns (r, dd') →
            r = Some err ∧ dispatchers dd' !! name = None).
  { intros dd msg pre r dd' Hd Hn Hs. unfold Send in Hs. rewrite Hn, Hd in Hs.
    destruct (run pre d) as [d2| |] eqn:E2; simplify_eq/=.
    apply (failed_stays_failed _ _ _ err) in E2 as (Hf2 & _); [|done].
    unfold recv_errCh in Hs. rewrite Hf2 in Hs. simpl in Hs.
    unfold close_msgCh in Hs. repeat case_match; simplify_eq/=.
    split; [done|]. apply lookup_delete_eq. }
  split; [done|]. split; [congruence|]. split; [by rewrite Hb|].
  split; [unfold recv_errCh; by rewrite Hf|].
  split; [exact Hstop|]. split; [exact Hsend|].
  - intros dd order r dd' Hd Hs.
    apply Stop_result in Hs
      as (_ & results & HF & _ & Hdom & _ & _ & _ & _ & Hm).
    apply Hm.
    assert (Hin : name ∈ order.*1) by (apply Hdom; eauto).
    clear -HF Hin Hd Hstop.
    induction HF as [|[n ss] [e a] order results (p & Hp & Hs) _ IH]; simpl in *.
    + by apply elem_of_nil in Hin.
    + apply elem_of_cons in Hin as [->|Hin].
      * rewrite Hd in Hp. simplify_eq. apply Hstop in Hs as ->.
        apply elem_of_cons; auto.
      * apply elem_of_cons; right. auto.
Qed.

(** ** The live listener *)

Section ListenerProperties.
Variable unmarshal : string → Applog + error.
Variable Q : Type.
Variable UnSub : Q → call_result * Q.
Variable gosyntax : string → string.

Local Abbreviation lstep := (listener_step unmarshal UnSub gosyntax).
Local Abbreviation lrun := (listener_run unmarshal UnSub gosyntax).
Local Abbreviation flow := (flow unmarshal).

Ltac inv_lstep H :=
  unfold listener_step, forward, Close in H;
  repeat (simplify_eq/=; try case_match);
  simplify_eq/=.

Lemma c_inv_step ev (l l' : LogListener Q) :
  c_inv l → lstep ev l = Returns l' → c_inv l'.
Proof.
  unfold c_inv. intros Hinv H.
  destruct l as [f q0 sc scc ch chc fw rc el dl]; simpl in *.
  inv_lstep H; intros; simplify_eq/=; auto; try (by specialize (Hinv eq_refl)).
Qed.

Lemma c_inv_run evs : ∀ l l' : LogListener Q,
  c_inv l → lrun evs l = Returns l' → c_inv l'.
Proof.
  induction evs as [|ev evs IH]; intros l l' Hinv H; simpl in H.
  - by simplify_eq.
  - destruct (lstep ev l) as [l1| |] eqn:E; simplify_eq/=.
    eauto using c_inv_step.
Qed.

Lemma listener_step_never_panics ev (l : LogListener Q) reason :
  c_inv l → lstep ev l ≠ Panics reason.
Proof.
  unfold c_inv. intros Hinv H.
  destruct l as [f q0 sc scc ch chc fw rc el dl]; simpl in *.
  inv_lstep H; by specialize (Hinv eq_refl).
Qed.

Lemma listener_run_never_panics evs : ∀ (l : LogListener Q) reason,
  c_inv l → lrun evs l ≠ Panics reason.
Proof.
  induction evs as [|ev evs IH]; intros l reason Hinv H; simpl in H.
  - discriminate.
  - destruct (lstep ev l) as [l1| |] eqn:E; simplify_eq/=.
    + exact (IH _ _ (c_inv_step _ _ _ Hinv E) H).
    + exact (listener_step_never_panics _ _ _ Hinv E).
Qed.

Lemma selected_app filter msgs1 msgs2 :
  selected unmarshal filter (msgs1 ++ msgs2)
  = selected unmarshal filter msgs1 ++ selected unmarshal filter msgs2.
Proof. unfold selected. apply omap_app. Qed.

Lemma flow_step ev (l l' : LogListener Q) :
  lstep ev l = Returns l' →
  filterLog l' = filterLog l
  ∧ flow l' = flow l ++ selected unmarshal (filterLog l) (published [ev]).
Proof.
  intros H. destruct l as [f q0 sc scc ch chc fw rc el dl].
  unfold flow, in_flight. simpl in *.
  destruct ev; simpl in H.
  - destruct scc; simplify_eq/=. split; [done|].
    rewrite selected_app. by rewrite !app_assoc.
  - simplify_eq/=. by rewrite !app_nil_r.
  - unfold forward in H. simpl in H.
    destruct fw as [|applog|]; [destruct sc as [|msg sc]| |]; simplify_eq/=.
    + destruct scc, chc; simplify_eq/=. by rewrite !app_nil_r.
    + unfold selected; simpl. destruct (unmarshal msg) as [applog|e] eqn:E;
        simplify_eq/=; [|by rewrite !app_nil_r].
      destruct (matches f applog); simplify_eq/=; by rewrite !app_nil_r.
    + destruct chc; [destruct rc; discriminate|].
      destruct (_ <? _)%nat; simplify_eq/=.
      by rewrite !app_nil_r, <- !app_assoc.
  - destruct ch as [|a ch]; [destruct chc|]; simplify_eq/=; by rewrite !app_nil_r.
  - unfold Close in H. simpl in H. destruct (UnSub q0) as [[e|v] q1];
      simplify_eq/=; by rewrite !app_nil_r.
Qed.

Lemma flow_run evs : ∀ l l' : LogListener Q,
  lrun evs l = Returns l' →
  filterLog l' = filterLog l
  ∧ flow l' = flow l ++ selected unmarshal (filterLog l) (published evs).
Proof.
  induction evs as [|ev evs IH]; intros l l' H; simpl in H.
  - simplify_eq. by rewrite app_nil_r.
  - destruct (lstep ev l) as [l1| |] eqn:E; [|discriminate..].
    change (lrun evs l1 = Returns l') in H.
    destruct (flow_step _ _ _ E) as [Hf1 Hfl1].
    destruct (IH _ _ H) as [Hf Hfl]. split; [congruence|].
    rewrite Hfl, Hfl1, Hf1, <- app_assoc. f_equal.
    rewrite <- selected_app. f_equal. by destruct ev.
Qed.

Lemma matches_spec filter applog :
  matches filter applog = true ↔
  (Source filter = "" ∨ Source filter = Source applog)
  ∧ (Unit filter = "" ∨ Unit filter = Unit applog).
Proof.
  unfold matches. rewrite andb_true_iff, !orb_true_iff, !String.eqb_eq. tauto.
Qed.

(** C6: after any run of a listener created with [filter], the entries
    sent to the consumer, the one the goroutine may hold at the send and
    those it will make of the messages it has not read yet are, in
    order, the published messages that decode to an entry matching the
    filter; so once the goroutine has read everything, exactly those
    were delivered.  An entry matches when the filter's Source is empty
    or equal to the entry's Source, and likewise for Unit. *)
Theorem listener_delivers_matching pubSubQ filter l0 evs l :
  NewLogListener (inr pubSubQ) filter = inr l0 →
  lrun evs l0 = Returns l →
  delivered l ++ in_flight l ++ selected unmarshal filter (subChan l)
  = selected unmarshal filter (published evs)
  ∧ (subChan l = [] → in_flight l = [] →
     delivered l = selected unmarshal filter (published evs))
  ∧ (∀ applog, applog ∈ selected unmarshal filter (published evs) ↔
       ∃ msg, msg ∈ published evs ∧ unmarshal msg = inl applog
              ∧ (Source filter = "" ∨ Source filter = Source applog)
              ∧ (Unit filter = "" ∨ Unit filter = Unit applog))
  ∧ (∀ applog, applog ∈ delivered l →
       (Source filter = "" ∨ Source filter = Source applog)
       ∧ (Unit filter = "" ∨ Unit filter = Unit applog)).
Proof.
  intros Hnew H. simpl in Hnew. simplify_eq.
  apply flow_run in H as [Hf Hfl]. unfold flow in Hfl. simpl in *.
  rewrite Hf in Hfl.
  assert (Hsel : ∀ applog, applog ∈ selected unmarshal filter (published evs) ↔
       ∃ msg, msg ∈ published evs ∧ unmarshal msg = inl applog
              ∧ (Source filter = "" ∨ Source filter = Source applog)
              ∧ (Unit filter = "" ∨ Unit filter = Unit applog)).
  { intros applog. unfold selected. rewrite list_elem_of_omap. split.
    - intros (msg & Hin & Hm). exists msg. split; [done|].
      destruct (unmarshal msg) as [a|e]; [|done].
      destruct (matches filter a) eqn:Hma; simplify_eq.
      split; [done|]. by apply matches_spec.
    - intros (msg & Hin & Hu & Hcond). exists msg. split; [done|].
      rewrite Hu. apply matches_spec in Hcond. by rewrite Hcond. }
  split; [done|]. split; [|split; [done|]].
  - intros Hs Hi. rewrite Hs, Hi in Hfl. simpl in Hfl.
    by rewrite !app_nil_r in Hfl.
  - intros applog Hin.
    assert (Hin' : applog ∈ selected unmarshal filter (published evs)).
    { rewrite <- Hfl. apply elem_of_app; auto. }
    apply Hsel in Hin' as (_ & _ & _ & ?). done.
Qed.

(** C8: take any state a listener can reach.  If the session's [UnSub]
    fails when it is called a second time, by returning an error or by
    panicking, then the second of two [Close] calls returns a non-nil
    error; when it panicked, that error is the recovered panic.  [Close]
    always returns.  Whatever happens afterwards, including further
    messages and delivery attempts after the closes, the forwarding
    goroutine does not panic. *)
Theorem Close_twice_reports pubSubQ filter l0 evs l :
  NewLogListener (inr pubSubQ) filter = inr l0 →
  lrun evs l0 = Returns l →
  (UnSub (UnSub (q l)).2).1 ≠ Returned None →
  (Close UnSub gosyntax (Close UnSub gosyntax l).2).1 ≠ None
  ∧ (∀ v, (UnSub (UnSub (q l)).2).1 = Panicked v →
       (Close UnSub gosyntax (Close UnSub gosyntax l).2).1
       = Some ("Recovered panic closing listener (possible double close): "
               +:+ gosyntax v))
  ∧ (∀ evs' reason,
       lrun (CallClose :: CallClose :: evs') l ≠ Panics reason)
  ∧ (∀ evs' reason, lrun evs' l ≠ Panics reason).
Proof.
  intros Hnew H Hfail. simpl in Hnew. simplify_eq.
  assert (Hinv : c_inv l).
  { eapply c_inv_run; [|exact H]. intros ?; discriminate. }
  assert (Hq : q (Close UnSub gosyntax l).2 = (UnSub (q l)).2).
  { unfold Close. destruct (UnSub (q l)) as [[e|v] q1]; reflexivity. }
  split; [|split; [|split]].
  - unfold Close at 1. rewrite Hq.
    destruct (UnSub (UnSub (q l)).2) as [[[e|]|v] q2]; simpl in *; congruence.
  - intros v Hv. unfold Close at 1. rewrite Hq.
    destruct (UnSub (UnSub (q l)).2) as [[e|v'] q2]; simpl in *; congruence.
  - intros evs' reason. by apply listener_run_never_panics.
  - intros evs' reason. by apply listener_run_never_panics.
Qed.

End ListenerProperties.

Lemma listener_delivers_matching_witness :
  ∃ l0 l,
    NewLogListener (inr true) app_filter = inr l0
    ∧ listener_run sample_unmarshal sample_UnSub sample_gosyntax sample_listening l0
      = Returns l
    ∧ delivered l = [mkApplog 0 "one" "app" "x" "u1"; mkApplog 0 "three" "app" "x" "u2"]
    ∧ delivered l
      = selected sample_unmarshal app_filter (published sample_listening).
Proof.
  eexists _, _.
  split; [reflexivity|]. split; [vm_compute; reflexivity|].
  split; [reflexivity|].
  refine (proj1 (proj2 (listener_delivers_matching sample_unmarshal bool sample_UnSub
                          sample_gosyntax true app_filter _ sample_listening _ _ _))
                _ _).
  - reflexivity.
  - vm_compute; reflexivity.
  - reflexivity.
  - reflexivity.
Defined.

Lemma Close_twice_reports_witness :
  ∃ l0 l,
    NewLogListener (inr true) app_filter = inr l0
    ∧ listener_run sample_unmarshal sample_UnSub sample_gosyntax
        [Published "x:app:u1:one"; Forward] l0 = Returns l
    ∧ (Close sample_UnSub sample_gosyntax l).1 = None
    ∧ (Close sample_UnSub sample_gosyntax (Close sample_UnSub sample_gosyntax l).2).1
      = Some "Recovered panic closing listener (possible double close): close of closed channel".
Proof.
  eexists _, _.
  split; [reflexivity|]. split; [vm_compute; reflexivity|].
  split; [reflexivity|].
  refine (proj1 (proj2 (Close_twice_reports sample_unmarshal bool sample_UnSub
                          sample_gosyntax true app_filter _
                          [Published "x:app:u1:one"; Forward] _ _ _ _))
                "close of closed channel" _).
  - reflexivity.
  - vm_compute; reflexivity.
  - vm_compute; discriminate.
  - reflexivity.
Defined.

(** ** Progress: the goroutines can always get a pipeline to settle *)

Lemma run_app ss1 ss2 d :
  run (ss1 ++ ss2) d = (d1 ← run ss1 d; run ss2 d1).
Proof.
  revert d. induction ss1 as [|s ss1 IH]; intros d; simpl; [done|].
  destruct (step s d); simpl; auto.
Qed.

(** With the flusher at its [select] and the writer at its receive, the
    two can move every queued entry into the buffer, inserting on the
    way whenever the buffer fills. *)
Lemma run_cons s ss d d1 :
  step s d = Returns d1 → run (s :: ss) d = run ss d1.
Proof. intros H. simpl. by rewrite H. Qed.

Lemma accept_entry d m :
  flusher d = FSelect → writer d = WToFlush m →
  ∃ ss d', run (Flusher EvToFlush :: ss) d = Returns d'
    ∧ flusher d' = FSelect ∧ writer d' = WRange
    ∧ msgCh d' = msgCh d ∧ msgCh_closed d' = msgCh_closed d.
Proof.
  intros Hf Hw. destruct d as [n q qc w f tm buf ck nt ins]; simpl in *. subst.
  unfold runFlusher; simpl.
  match goal with |- context [if ?b then _ else _] => destruct b end.
  - exists [Flusher (EvInsert None)]. eexists. split; [reflexivity|]. done.
  - exists []. eexists. split; [reflexivity|]. done.
Qed.

Lemma drain_queue q : ∀ d,
  msgCh d = q → flusher d = FSelect → writer d = WRange →
  ∃ ss d', run ss d = Returns d'
    ∧ msgCh d' = [] ∧ writer d' = WRange ∧ flusher d' = FSelect
    ∧ msgCh_closed d' = msgCh_closed d.
Proof.
  induction q as [|m q IH]; intros d Hq Hf Hw.
  - exists [], d. by repeat split.
  - set (d1 := set_writer (WToFlush m)
                 (set_notified (notified d ++ [m]) (set_msgCh q d))).
    assert (H1 : step Writer d = Returns d1).
    { simpl. unfold runDBWriter. by rewrite Hw, Hq. }
    destruct (accept_entry d1 m) as (ss2 & d2 & H2 & Hf2 & Hw2 & Hq2 & Hc2);
      [done..|].
    destruct (IH d2) as (ss & d' & Hrun & ? & ? & ? & Hc'); [done..|].
    exists (Writer :: (Flusher EvToFlush :: ss2) ++ ss), d'.
    split; [|repeat split; try done; by rewrite Hc', Hc2].
    rewrite (run_cons _ _ _ _ H1), run_app, H2. exact Hrun.
Qed.

(** From any state the goroutines can take a pipeline to a state where
    its error channel is ready, or where the queue is empty with the
    writer waiting, or where the writer has returned. *)
Lemma pipeline_settles d :
  ∃ ss d', run ss d = Returns d'
    ∧ msgCh_closed d' = msgCh_closed d
    ∧ ((∃ err, flusher d' = FErrCh err) ∨ flusher d' = FReturned
       ∨ (flusher d' = FSelect ∧ msgCh d' = [] ∧ writer d' = WRange)
       ∨ (flusher d' = FSelect ∧ writer d' = WDone)).
Proof.
  assert (Hsel : ∀ d, flusher d = FSelect →
    ∃ ss d', run ss d = Returns d'
      ∧ msgCh_closed d' = msgCh_closed d
      ∧ ((flusher d' = FSelect ∧ msgCh d' = [] ∧ writer d' = WRange)
         ∨ (flusher d' = FSelect ∧ writer d' = WDone))).
  { clear d. intros d Hf.
    destruct (writer d) as [|m|] eqn:Hw.
    - destruct (drain_queue (msgCh d) d) as (ss & d' & Hrun & ? & ? & ? & ?);
        [done..|].
      exists ss, d'. split; [done|]. split; [done|]. left. done.
    - destruct (accept_entry d m) as (ss2 & d2 & H2 & Hf2 & Hw2 & Hq2 & Hc2);
        [done..|].
      destruct (drain_queue (msgCh d2) d2) as (ss & d' & Hrun & ? & ? & ? & Hc');
        [done..|].
      exists ((Flusher EvToFlush :: ss2) ++ ss), d'.
      split; [|split; [by rewrite Hc', Hc2|left; done]].
      rewrite run_app, H2. exact Hrun.
    - exists [], d. split; [done|]. split; [done|]. right. done. }
  destruct (flusher d) as [| | |err|] eqn:Hf.
  - destruct (Hsel (set_flusher FSelect d) eq_refl) as (ss & d' & Hrun & Hc & Hor).
    exists (Flusher (EvLogConn None) :: ss), d'.
    split; [|split; [done|right; right; done]].
    simpl. unfold runFlusher. rewrite Hf. simpl. exact Hrun.
  - destruct (Hsel d Hf) as (ss & d' & Hrun & Hc & Hor).
    exists ss, d'. split; [done|]. split; [done|]. right; right; done.
  - destruct (Hsel (set_flusher FSelect
                      (set_bulkBuffer (reslice0 (bulkBuffer d))
                         (set_inserted (inserted d ++ [items (bulkBuffer d)]) d)))
                eq_refl) as (ss & d' & Hrun & Hc & Hor).
    exists (Flusher (EvInsert None) :: ss), d'.
    split; [|split; [done|right; right; done]].
    simpl. unfold runFlusher. rewrite Hf. simpl. exact Hrun.
  - exists [], d. split; [done|]. split; [done|]. left. eauto.
  - exists [], d. split; [done|]. split; [done|]. right; left. done.
Qed.

(** Once the queue is closed, the goroutines can always bring the
    pipeline to its final status: [Stop]'s receive can complete. *)
Lemma stop_one_can_return appD :
  msgCh_closed appD = false →
  ∃ ss err appD', stop_one ss appD = Returns (err, appD').
Proof.
  intros Hc.
  destruct (pipeline_settles (set_msgCh_closed true appD))
    as (ss & d' & Hrun & Hc' & Hor). simpl in Hc'.
  unfold stop_one, close_msgCh. rewrite Hc. simpl.
  destruct Hor as [[err Hf]|[Hf|[(Hf & Hq & Hw)|(Hf & Hw)]]].
  - exists ss. rewrite Hrun. simpl. unfold recv_errCh. rewrite Hf. eauto.
  - exists ss. rewrite Hrun. simpl. unfold recv_errCh. rewrite Hf. eauto.
  - exists (ss ++ [Writer; Flusher EvDone]). rewrite run_app, Hrun. simpl.
    unfold runDBWriter. rewrite Hw, Hq, Hc'. simpl.
    unfold runFlusher. simpl. rewrite Hf. simpl. unfold recv_errCh. simpl. eauto.
  - exists (ss ++ [Flusher EvDone]). rewrite run_app, Hrun. simpl.
    unfold runFlusher. rewrite Hf, Hw. simpl. unfold recv_errCh. simpl. eauto.
Qed.

(** ** The routing table never holds a closed pipeline *)

Lemma tracked_inv_new : tracked_inv NewlogDispatcher.
Proof. intros name appD H. simpl in H. by rewrite lookup_empty in H. Qed.

Lemma background_tracked name s d d' :
  tracked_inv d → background name s d = Returns d' → tracked_inv d'.
Proof.
  unfold background. intros Hinv H.
  destruct (dispatchers d !! name) as [appD|] eqn:Hd; simplify_eq/=.
  destruct (step s appD) as [appD'| |] eqn:E; simplify_eq/=.
  intros n a Ha. simpl in Ha.
  destruct (decide (name = n)) as [->|Hne].
  - rewrite lookup_insert_eq in Ha. simplify_eq.
    apply step_keeps_closed in E as [-> ->]. by apply Hinv.
  - rewrite lookup_insert_ne in Ha by done. by apply Hinv.
Qed.

Lemma background_never_panics name s d reason :
  background name s d ≠ Panics reason.
Proof.
  unfold background. intros H.
  destruct (dispatchers d !! name) as [appD|]; simplify_eq/=.
  destruct (step s appD) as [appD'| |] eqn:E; simplify_eq/=.
  by apply step_never_panics in E.
Qed.

Lemma backgrounds_tracked bs : ∀ d d',
  tracked_inv d → backgrounds bs d = Returns d' → tracked_inv d'.
Proof.
  induction bs as [|[name s] bs IH]; intros d d' Hinv H; simpl in H.
  - by simplify_eq.
  - destruct (background name s d) as [d1| |] eqn:E; simplify_eq/=.
    eauto using background_tracked.
Qed.

Lemma backgrounds_never_panics bs : ∀ d reason,
  backgrounds bs d ≠ Panics reason.
Proof.
  induction bs as [|[name s] bs IH]; intros d reason H; simpl in H.
  - discriminate.
  - destruct (background name s d) as [d1| |] eqn:E; simplify_eq/=.
    + by apply IH in H.
    + by apply background_never_panics in E.
Qed.

Lemma Send_tracked pre sel msg d r d' :
  tracked_inv d → Send pre sel msg d = Returns (r, d') → tracked_inv d'.
Proof.
  unfold Send. intros Hinv H.
  set (appD0 := match dispatchers d !! AppName msg with
                | Some appD => appD
                | None => newAppLogDispatcher (AppName msg)
                end) in H.
  assert (H0 : msgCh_closed appD0 = false ∧ appName appD0 = AppName msg).
  { subst appD0. destruct (dispatchers d !! AppName msg) eqn:Hd; [|done].
    by apply Hinv. }
  destruct (run pre appD0) as [appD1| |] eqn:E; simplify_eq/=.
  apply run_keeps_closed in E as [Hc1 Hn1].
  destruct sel.
  - unfold send_msgCh in H. repeat case_match; simplify_eq/=.
    intros n a Ha. simpl in Ha.
    destruct (decide (AppName msg = n)) as [<-|Hne].
    + rewrite lookup_insert_eq in Ha. simplify_eq/=.
      destruct H0. split; congruence.
    + rewrite lookup_insert_ne in Ha by done. by apply Hinv.
  - unfold recv_errCh, close_msgCh in H.
    destruct appD1 as [n0 q0 qc w f tm b ck nt ins]; simpl in *.
    destruct f, qc; simplify_eq/=.
    all: intros n a Ha; simpl in Ha;
      apply lookup_delete_Some in Ha as [_ Ha]; by apply Hinv.
Qed.

Lemma Send_never_panics pre sel msg d reason :
  tracked_inv d → Send pre sel msg d ≠ Panics reason.
Proof.
  unfold Send. intros Hinv H.
  set (appD0 := match dispatchers d !! AppName msg with
                | Some appD => appD
                | None => newAppLogDispatcher (AppName msg)
                end) in H.
  assert (H0 : msgCh_closed appD0 = false).
  { subst appD0. destruct (dispatchers d !! AppName msg) eqn:Hd; [|done].
    by apply Hinv in Hd as [? _]. }
  destruct (run pre appD0) as [appD1| |] eqn:E; simplify_eq/=.
  - apply run_keeps_closed in E as [Hc1 _]. rewrite H0 in Hc1.
    destruct sel.
    + unfold send_msgCh in H. rewrite Hc1 in H. repeat case_match; simplify_eq/=.
    + unfold recv_errCh, close_msgCh in H.
      destruct appD1 as [n q0 qc w f tm b ck nt ins]; simpl in *. subst qc.
      destruct f; simplify_eq/=.
  - by apply run_never_panics in E.
Qed.

Lemma Stop_from_never_panics order : ∀ finalErr d reason,
  tracked_inv d → Stop_from order finalErr d ≠ Panics reason.
Proof.
  induction order as [|[name ss] order IH]; intros finalErr d reason Hinv H;
    simpl in H.
  - by destruct (decide _).
  - destruct (dispatchers d !! name) as [appD|] eqn:Hd; simplify_eq/=.
    destruct (Hinv _ _ Hd) as [Hc _].
    destruct (stop_one ss appD) as [[err appD']| |] eqn:E; simplify_eq/=.
    + apply IH in H; [done|]. intros n a Ha. simpl in Ha.
      apply lookup_delete_Some in Ha as [_ Ha]. by apply Hinv.
    + unfold stop_one, close_msgCh in E. rewrite Hc in E. simpl in E.
      destruct (run ss _) as [d1| |] eqn:E1; simplify_eq/=.
      * unfold recv_errCh in E. repeat case_match; simplify_eq/=.
      * by apply run_never_panics in E1.
Qed.

(** [Send] can always complete: the goroutines can make one of the two
    cases of its [select] ready. *)
Lemma Send_can_return msg d :
  tracked_inv d → ∃ pre sel r d', Send pre sel msg d = Returns (r, d').
Proof.
  intros Hinv. unfold Send.
  set (appD0 := match dispatchers d !! AppName msg with
                | Some appD => appD
                | None => newAppLogDispatcher (AppName msg)
                end).
  assert (H0 : msgCh_closed appD0 = false).
  { subst appD0. destruct (dispatchers d !! AppName msg) eqn:Hd; [|done].
    by apply Hinv in Hd as [? _]. }
  destruct (pipeline_settles appD0) as (ss & d' & Hrun & Hc & Hor).
  rewrite H0 in Hc.
  destruct Hor as [[err Hf]|[Hf|[(Hf & Hq & Hw)|(Hf & Hw)]]].
  - exists ss, CaseErrCh. rewrite Hrun. simpl. unfold recv_errCh. rewrite Hf.
    simpl. unfold close_msgCh. simpl. rewrite Hc. eauto.
  - exists ss, CaseErrCh. rewrite Hrun. simpl. unfold recv_errCh. rewrite Hf.
    simpl. unfold close_msgCh. rewrite Hc. eauto.
  - exists ss, CaseMsgCh. rewrite Hrun. simpl. unfold send_msgCh.
    rewrite Hc, Hq. simpl. eauto.
  - exists (ss ++ [Flusher EvDone]), CaseErrCh. rewrite run_app, Hrun. simpl.
    unfold runFlusher. rewrite Hf, Hw. simpl. unfold recv_errCh. simpl.
    unfold close_msgCh. simpl. rewrite Hc. eauto.
Qed.

Lemma Stop_from_can_return (m : gmap string appLogDispatcher) :
  (∀ name appD, m !! name = Some appD → msgCh_closed appD = false) →
  ∀ ret finalErr, ∃ order r d',
    Stop_from order finalErr (mkLogD m ret) = Returns (r, d').
Proof.
  induction m as [|name appD m Hfresh IH] using map_ind; intros Hopen ret finalErr.
  - exists []. simpl. rewrite dom_empty_L. rewrite decide_True by done. eauto.
  - destruct (stop_one_can_return appD) as (ss & err & appD' & Hs).
    { apply (Hopen name). apply lookup_insert_eq. }
    destruct (IH) with (ret := ret ++ [appD']) (finalErr := join_err finalErr err)
      as (order & r & d' & Hr).
    { intros n a Ha. apply (Hopen n). rewrite lookup_insert_ne; [done|].
      intros ->. congruence. }
    exists ((name, ss) :: order), r, d'. simpl.
    rewrite lookup_insert_eq, Hs. simpl.
    rewrite delete_insert_eq, delete_id by done. exact Hr.
Qed.

(** C5: [Stop] can always return.  When it returns, it has visited
    every pipeline of the routing table exactly once, closed its queue
    and waited for its final status; the table is empty and the pipelines
    are retired.  The returned error is nil exactly when every pipeline
    reported nil; otherwise it is the texts of the errors received, in
    the order of the visit, separated by ", ", so it mentions every error
    received and nothing else. *)
Theorem Stop_collects_errors d :
  tracked_inv d →
  (∃ order r d', Stop order d = Returns (r, d'))
  ∧ ∀ order r d', Stop order d = Returns (r, d') →
      dispatchers d' = ∅
      ∧ ∃ results : list (option error * appLogDispatcher),
          Forall2 (λ o res, ∃ appD, dispatchers d !! o.1 = Some appD
                                    ∧ stop_one o.2 appD = Returns res)
                  order results
          ∧ NoDup order.*1
          ∧ (∀ name, name ∈ order.*1 ↔ is_Some (dispatchers d !! name))
          ∧ retired d' = retired d ++ results.*2
          ∧ Forall (λ appD', msgCh_closed appD' = true ∧ flusher appD' = FReturned)
                   results.*2
          ∧ r = report (omap id results.*1)
          ∧ (r = None ↔ Forall (λ err, err = None) results.*1)
          ∧ (∀ e, Some e ∈ results.*1 → ∃ text, r = Some text ∧ mentions e text).
Proof.
  intros Hinv. split.
  - destruct d as [m ret]. unfold Stop. apply Stop_from_can_return.
    intros name appD Hd. by apply (Hinv name appD).
  - intros order r d'. apply Stop_result.
Qed.

Lemma two_apps_tracked : tracked_inv two_apps.
Proof.
  intros name appD H. apply elem_of_map_to_list in H.
  set (l := map_to_list (dispatchers two_apps)) in H. vm_compute in l. subst l.
  repeat (apply elem_of_cons in H as [H|H]; [by simplify_eq|]).
  by apply elem_of_nil in H.
Qed.

Lemma Stop_collects_errors_witness :
  tracked_inv two_apps
  ∧ Stop [("y", drain_one); ("x", [])] two_apps
    = Returns (Some "boom", returned (Stop [("y", drain_one); ("x", [])] two_apps)
                              (None, two_apps)).2
  ∧ ∃ results : list (option error * appLogDispatcher),
      results.*1 = [None; Some "boom"]
      ∧ Some "boom" = report (omap id results.*1).
Proof.
  split; [exact two_apps_tracked|].
  split; [vm_compute; reflexivity|].
  destruct (proj2 (Stop_collects_errors two_apps two_apps_tracked)
              [("y", drain_one); ("x", [])]
              (Some "boom")
              (returned (Stop [("y", drain_one); ("x", [])] two_apps)
                        (None, two_apps)).2)
    as (_ & results & HF & _ & _ & _ & _ & Hr & _).
  { vm_compute; reflexivity. }
  exists results. split; [|exact Hr].
  apply Forall2_cons_inv_l in HF as ([e1 a1] & res1 & (p1 & Hp1 & Hs1) & HF & ->).
  apply Forall2_cons_inv_l in HF as ([e2 a2] & res2 & (p2 & Hp2 & Hs2) & HF & ->).
  apply Forall2_nil_inv_l in HF as ->.
  vm_compute in Hp1. vm_compute in Hp2. simplify_eq.
  vm_compute in Hs1. vm_compute in Hs2. simplify_eq. reflexivity.
Defined.

(** Two failed pipelines: both errors are in the report, in the order
    of the visit. *)
Lemma Stop_two_failures :
  ∃ d,
    Send [Flusher (EvLogConn (Some "bang"))] CaseMsgCh entry_y failed_dispatcher
    = Returns (None, d)
    ∧ (∃ d', Stop [("x", []); ("y", [])] d = Returns (Some "boom, bang", d'))
    ∧ (∃ d', Stop [("y", []); ("x", [])] d = Returns (Some "bang, boom", d')).
Proof.
  eexists. split; [vm_compute; reflexivity|].
  split; eexists; vm_compute; reflexivity.
Qed.

Lemma backgrounds_retired bs : ∀ d d',
  backgrounds bs d = Returns d' → retired d' = retired d.
Proof.
  induction bs as [|[name s] bs IH]; intros d d' H; simpl in H.
  - by simplify_eq.
  - unfold background in H.
    destruct (dispatchers d !! name) as [appD|]; simplify_eq/=.
    destruct (step s appD) as [appD'| |]; simplify_eq/=.
    by apply IH in H.
Qed.

Lemma Send_retired pre sel msg d r d' :
  retired_inv d → Send pre sel msg d = Returns (r, d') → retired_inv d'.
Proof.
  unfold Send, retired_inv. intros Hinv H.
  destruct (run pre _) as [appD1| |]; simplify_eq/=.
  destruct sel.
  - unfold send_msgCh in H. repeat case_match; by simplify_eq/=.
  - unfold recv_errCh, close_msgCh in H.
    destruct appD1 as [n0 q0 qc w f tm b ck nt ins]; simpl in *.
    destruct f, qc; simplify_eq/=.
    all: apply Forall_app; split; [done|]; by apply Forall_singleton.
Qed.

(** ** The endpoint *)

Section EndpointProperties.
Variable unmarshal : string → Applog + error.
Variable TrimSpace : string → string.
Variable quote : string → string.
Variable InternalAppName : string.

Local Abbreviation scan := (scan_loop unmarshal TrimSpace).
Local Abbreviation serve := (addLogs unmarshal TrimSpace quote InternalAppName).
Local Abbreviation unparsable := (first_unparsable unmarshal TrimSpace).

(** How the loop is left depends on the lines alone: at the first line
    that is not blank and does not decode, at the end otherwise.  What
    [Send] returns plays no part. *)
Lemma scan_loop_exit lines : ∀ ss log d exit log' d',
  scan lines ss log d = Returns (exit, log', d') →
  exit = match unparsable lines with
         | Some (data, err) => LoopUnparsable data err
         | None => LoopEnd
         end.
Proof.
  induction lines as [|line lines IH]; intros ss log d exit log' d' H; simpl in *.
  - by simplify_eq.
  - destruct (String.length (TrimSpace line) =? 0)%nat; [eauto|].
    destruct (unmarshal (TrimSpace line)) as [entry|err]; [|by simplify_eq].
    destruct (backgrounds _ d) as [d1| |]; simplify_eq/=.
    destruct (Send _ _ entry d1) as [[err d2]| |]; simplify_eq/=.
    eauto.
Qed.

Lemma scan_loop_tracked lines : ∀ ss log d exit log' d',
  tracked_inv d → scan lines ss log d = Returns (exit, log', d') →
  tracked_inv d'.
Proof.
  induction lines as [|line lines IH]; intros ss log d exit log' d' Hinv H;
    simpl in *.
  - by simplify_eq.
  - destruct (String.length (TrimSpace line) =? 0)%nat; [eauto|].
    destruct (unmarshal (TrimSpace line)) as [entry|err]; [|by simplify_eq].
    destruct (backgrounds _ d) as [d1| |] eqn:E1; simplify_eq/=.
    destruct (Send _ _ entry d1) as [[err d2]| |] eqn:E2; simplify_eq/=.
    eauto using backgrounds_tracked, Send_tracked.
Qed.

Lemma scan_loop_never_panics lines : ∀ ss log d reason,
  tracked_inv d → scan lines ss log d ≠ Panics reason.
Proof.
  induction lines as [|line lines IH]; intros ss log d reason Hinv H;
    simpl in *.
  - discriminate.
  - destruct (String.length (TrimSpace line) =? 0)%nat; [by apply IH in H|].
    destruct (unmarshal (TrimSpace line)) as [entry|err]; [|discriminate].
    destruct (backgrounds _ d) as [d1| |] eqn:E1; simplify_eq/=.
    + destruct (Send _ _ entry d1) as [[err d2]| |] eqn:E2; simplify_eq/=.
      * apply IH in H; eauto using backgrounds_tracked, Send_tracked.
      * apply Send_never_panics in E2; eauto using backgrounds_tracked.
    + by apply backgrounds_never_panics in E1.
Qed.

Lemma scan_loop_retired lines : ∀ ss log d exit log' d',
  retired_inv d → scan lines ss log d = Returns (exit, log', d') →
  retired_inv d'.
Proof.
  induction lines as [|line lines IH]; intros ss log d exit log' d' Hinv H;
    simpl in *.
  - by simplify_eq.
  - destruct (String.length (TrimSpace line) =? 0)%nat; [eauto|].
    destruct (unmarshal (TrimSpace line)) as [entry|err]; [|by simplify_eq].
    destruct (backgrounds _ d) as [d1| |] eqn:E1; simplify_eq/=.
    destruct (Send _ _ entry d1) as [[err d2]| |] eqn:E2; simplify_eq/=.
    eapply IH; [|exact H]. eapply Send_retired; [|exact E2].
    unfold retired_inv. by rewrite (backgrounds_retired _ _ _ E1).
Qed.

(** The endpoint never panics. *)
Lemma addLogs_never_panics token lines scanErr cs reason :
  serve token lines scanErr cs ≠ Panics reason.
Proof.
  unfold addLogs. intros H.
  destruct token as [tokenApp|]; [|discriminate].
  destruct (negb _); [discriminate|].
  destruct (scan lines _ _ _) as [[[exit log] d]| |] eqn:E; simplify_eq/=.
  - apply scan_loop_tracked in E; [|apply tracked_inv_new].
    destruct (backgrounds _ d) as [d1| |] eqn:E1; simplify_eq/=.
    + destruct (Stop _ d1) as [[err d2]| |] eqn:E2; simplify_eq/=.
      * repeat case_match; discriminate.
      * apply Stop_from_never_panics in E2; eauto using backgrounds_tracked.
    + by apply backgrounds_never_panics in E1.
  - apply scan_loop_never_panics in E; [done|apply tracked_inv_new].
Qed.

(** The loop can always get through its lines, and the endpoint can
    always return. *)
Lemma scan_loop_can_return lines : ∀ log d,
  tracked_inv d →
  ∃ ss exit log' d', scan lines ss log d = Returns (exit, log', d').
Proof.
  induction lines as [|line lines IH]; intros log d Hinv; simpl.
  - exists []. eauto.
  - destruct (String.length (TrimSpace line) =? 0)%nat; [by apply IH|].
    destruct (unmarshal (TrimSpace line)) as [entry|err]; [|exists []; eauto].
    destruct (Send_can_return entry d Hinv) as (pre & sel & r & d1 & Hs).
    destruct (IH (match r with
                  | Some e => log ++ ["wslogs: error storing log: " +:+ e]
                  | None => log
                  end) d1) as (ss & exit & log' & d' & H).
    { eapply Send_tracked; eauto. }
    exists (mkSendSched [] pre sel :: ss), exit, log', d'. simpl.
    rewrite Hs. simpl. exact H.
Qed.

Lemma addLogs_can_return token lines scanErr :
  ∃ cs res, serve token lines scanErr cs = Returns res.
Proof.
  unfold addLogs. destruct token as [tokenApp|].
  2:{ exists (mkConnSched [] [] []). eauto. }
  destruct (negb _); [exists (mkConnSched [] [] []); eauto|].
  destruct (scan_loop_can_return lines [] NewlogDispatcher tracked_inv_new)
    as (ss & exit & log & d & Hscan).
  assert (Hinv : tracked_inv d).
  { eapply scan_loop_tracked; [apply tracked_inv_new|exact Hscan]. }
  assert (Hstop : ∃ order r d', Stop order d = Returns (r, d')).
  { destruct d as [m ret]. unfold Stop. apply Stop_from_can_return.
    intros name appD Hd. by apply (Hinv name appD). }
  destruct Hstop as (order & r & d' & Hstop).
  exists (mkConnSched ss [] order). simpl. rewrite Hscan. simpl.
  rewrite Hstop. simpl. repeat case_match; eauto.
Qed.

(** C9: when [Send] returns an error for a line, the endpoint logs it
    and goes on with the next line; with no undecodable line the loop
    always reaches the end of the input.  The endpoint never panics,
    and whenever it returns it has written exactly one frame and then
    closed the connection; the frame carries no error, or the text of
    the error the endpoint ended on, which is also the last line of its
    log.  For every input some schedule lets the endpoint return. *)
Theorem addLogs_one_final_frame token lines scanErr :
  (∀ line lines' s ss log d entry e d1 d2,
     String.length (TrimSpace line) ≠ 0%nat →
     unmarshal (TrimSpace line) = inl entry →
     backgrounds (bg s) d = Returns d1 →
     Send (pre s) (sel s) entry d1 = Returns (Some e, d2) →
     scan (line :: lines') (s :: ss) log d
     = scan lines' ss (log ++ ["wslogs: error storing log: " +:+ e]) d2)
  ∧ (∀ ss log d exit log' d',
       unparsable lines = None →
       scan lines ss log d = Returns (exit, log', d') → exit = LoopEnd)
  ∧ (∃ cs res, serve token lines scanErr cs = Returns res)
  ∧ (∀ cs reason, serve token lines scanErr cs ≠ Panics reason)
  ∧ (∀ cs res, serve token lines scanErr cs = Returns res →
       ∃ data_error,
         ws res = [WsWrite data_error; WsClose]
         ∧ (∀ text, data_error = Some text → last (oplog res) = Some text)
         ∧ (data_error = None
            ∨ data_error = Some "wslogs: no token"
            ∨ (∃ tokenApp, token = Some tokenApp ∧ tokenApp ≠ InternalAppName
                 ∧ data_error
                   = Some ("wslogs: invalid token app name: " +:+ quote tokenApp))
            ∨ (∃ data perr, unparsable lines = Some (data, perr)
                 ∧ data_error
                   = Some ("wslogs: parsing log line " +:+ quote data
                           +:+ ": " +:+ perr))
            ∨ (∃ e, data_error = Some ("wslogs: error storing log: " +:+ e))
            ∨ (∃ e, scanErr = Some e
                 ∧ data_error = Some ("wslogs: waiting for log data: " +:+ e)))).
Proof.
  split; [|split; [|split; [|split]]].
  - intros line lines' s ss log d entry e d1 d2 Hlen Hu Hb Hs. simpl.
    apply Nat.eqb_neq in Hlen. rewrite Hlen, Hu, Hb. simpl. by rewrite Hs.
  - intros ss log d exit log' d' Hnone H.
    apply scan_loop_exit in H. by rewrite Hnone in H.
  - apply addLogs_can_return.
  - intros cs reason. apply addLogs_never_panics.
  - intros cs res H. unfold addLogs in H.
    destruct token as [tokenApp|]; simplify_eq/=.
    2:{ eexists. split; [reflexivity|]. split; [|auto].
        intros text ?; by simplify_eq. }
    destruct (String.eqb tokenApp InternalAppName) eqn:Ht; simplify_eq/=.
    2:{ apply String.eqb_neq in Ht. eexists. split; [reflexivity|].
        split; [intros text ?; by simplify_eq|]. right; right; left. eauto. }
    destruct (scan lines _ _ _) as [[[exit log] d]| |] eqn:E; simplify_eq/=.
    destruct (backgrounds _ d) as [d1| |] eqn:E1; simplify_eq/=.
    destruct (Stop _ d1) as [[err d2]| |] eqn:E2; simplify_eq/=.
    apply scan_loop_exit in E.
    destruct exit as [|data perr].
    + destruct err as [e|]; [|destruct scanErr as [e|]]; simplify_eq/=.
      * eexists. split; [reflexivity|].
        split; [intros text ?; simplify_eq; apply last_snoc|].
        do 4 right. left. eauto.
      * eexists. split; [reflexivity|].
        split; [intros text ?; simplify_eq; apply last_snoc|].
        do 5 right. eauto.
      * eexists. split; [reflexivity|]. split; [done|auto].
    + simplify_eq/=. eexists. split; [reflexivity|].
      split; [intros text ?; simplify_eq; apply last_snoc|].
      do 3 right. left. exists data, perr. split; [|done].
      destruct (unparsable lines) as [[? ?]|]; by simplify_eq.
Qed.

(** C7: when a line that is not blank fails to decode, the endpoint, if
    it returns, has stopped the dispatcher, whose routing table is then
    empty with every retired pipeline stopped, and has ended the
    connection with one frame whose error quotes the trimmed line; later
    lines are not read.  A line that is blank after trimming is skipped:
    nothing is sent, logged or reported for it.  When the input is just
    one undecodable line the endpoint returns, whatever the schedule
    brings, and the connection's dispatcher has stored nothing.  For
    every input some schedule lets the endpoint return. *)
Theorem addLogs_unparsable_line lines scanErr :
  (∃ cs res, serve (Some InternalAppName) lines scanErr cs = Returns res)
  ∧ (∀ cs data perr res,
     unparsable lines = Some (data, perr) →
     serve (Some InternalAppName) lines scanErr cs = Returns res →
     ws res = [WsWrite (Some ("wslogs: parsing log line " +:+ quote data
                              +:+ ": " +:+ perr)); WsClose]
     ∧ ∃ d, dispatcher res = Some d ∧ dispatchers d = ∅
            ∧ Forall (λ appD, msgCh_closed appD = true ∧ flusher appD = FReturned)
                     (retired d))
  ∧ (∀ line ss log d,
       String.length (TrimSpace line) = 0%nat →
       scan (line :: lines) ss log d = scan lines ss log d)
  ∧ (∀ cs line,
       String.length (TrimSpace line) = 0%nat →
       serve (Some InternalAppName) (line :: lines) scanErr cs
       = serve (Some InternalAppName) lines scanErr cs)
  ∧ (∀ cs line perr,
       String.length (TrimSpace line) ≠ 0%nat →
       unmarshal (TrimSpace line) = inr perr →
       serve (Some InternalAppName) [line] scanErr
             (mkConnSched (sends cs) [] [])
       = Returns (deferred (Some ("wslogs: parsing log line "
                                  +:+ quote (TrimSpace line) +:+ ": " +:+ perr))
                           [] (Some NewlogDispatcher))
       ∧ ∀ res, serve (Some InternalAppName) [line] scanErr cs = Returns res →
           ∃ d, dispatcher res = Some d ∧ ∀ name, persisted name d = []).
Proof.
  split; [|split; [|split; [|split]]].
  - apply addLogs_can_return.
  - intros cs data perr res Hu H. unfold addLogs in H.
    rewrite String.eqb_refl in H. simpl in H.
    destruct (scan lines _ _ _) as [[[exit log] d]| |] eqn:E; simplify_eq/=.
    destruct (backgrounds _ d) as [d1| |] eqn:E1; simplify_eq/=.
    destruct (Stop _ d1) as [[err d2]| |] eqn:E2; simplify_eq/=.
    pose proof (scan_loop_exit _ _ _ _ _ _ _ E) as Hexit. rewrite Hu in Hexit.
    subst exit. simplify_eq/=. split; [done|].
    exists d2. split; [done|].
    apply Stop_result in E2 as (Hempty & results & _ & _ & _ & Hret & Hst & _).
    split; [done|]. rewrite Hret. apply Forall_app. split; [|done].
    rewrite (backgrounds_retired _ _ _ E1).
    eapply scan_loop_retired; [|exact E]. constructor.
  - intros line ss log d Hlen. simpl. apply Nat.eqb_eq in Hlen. by rewrite Hlen.
  - intros cs line Hlen. unfold addLogs. simpl.
    apply Nat.eqb_eq in Hlen. by rewrite Hlen.
  - intros cs line perr Hlen Hu. apply Nat.eqb_neq in Hlen.
    split.
    + unfold addLogs. rewrite String.eqb_refl. simpl. by rewrite Hlen, Hu.
    + intros res H. unfold addLogs in H. rewrite String.eqb_refl in H.
      simpl in H. rewrite Hlen, Hu in H. simpl in H.
      destruct (stop_bg cs) as [|[n s] bs]; simpl in H.
      2:{ unfold background in H. simpl in H. by rewrite lookup_empty in H. }
      unfold Stop in H. destruct (stop_order cs) as [|[n ss] order]; simpl in H.
      2:{ by rewrite lookup_empty in H. }
      destruct (decide _); simplify_eq/=.
      eexists. split; [reflexivity|]. intros name. unfold persisted. simpl.
      by rewrite lookup_empty.
Qed.

End EndpointProperties.

Lemma addLogs_one_final_frame_witness :
  ∃ res d,
    addLogs sample_unmarshal sample_TrimSpace sample_quote "tsr"
            (Some "tsr") three_lines None storage_outage_sched = Returns res
    ∧ oplog res = ["wslogs: error storing log: no reachable servers"]
    ∧ dispatcher res = Some d
    ∧ persisted "x" d = [[mkApplog 0 "three" "app" "x" "u1"]]
    ∧ ws res = [WsWrite None; WsClose]
    ∧ ∃ data_error, ws res = [WsWrite data_error; WsClose].
Proof.
  eexists _, _.
  split; [vm_compute; reflexivity|].
  split; [reflexivity|]. split; [reflexivity|].
  split; [vm_compute; reflexivity|]. split; [reflexivity|].
  destruct (proj2 (proj2 (proj2 (proj2
              (addLogs_one_final_frame sample_unmarshal sample_TrimSpace
                 sample_quote "tsr" (Some "tsr") three_lines None))))
              storage_outage_sched _ ltac:(vm_compute; reflexivity))
    as (data_error & Hws & _).
  exists data_error. exact Hws.
Defined.

Lemma addLogs_unparsable_line_witness :
  ∃ res,
    first_unparsable sample_unmarshal sample_TrimSpace sample_lines
    = Some ("not-json", "invalid character")
    ∧ addLogs sample_unmarshal sample_TrimSpace sample_quote "tsr"
              (Some "tsr") sample_lines None sample_conn_sched = Returns res
    ∧ ws res = [WsWrite (Some "wslogs: parsing log line <not-json>: invalid character");
                WsClose].
Proof.
  eexists. split; [vm_compute; reflexivity|].
  split; [vm_compute; reflexivity|].
  refine (proj1 (proj1 (proj2 (addLogs_unparsable_line sample_unmarshal
                                 sample_TrimSpace sample_quote "tsr"
                                 sample_lines None))
                       sample_conn_sched "not-json" "invalid character" _ _ _)).
  - vm_compute; reflexivity.
  - vm_compute; reflexivity.
Defined.

Lemma LogConn_failure_is_stored_witness :
  let d := after connection_refused (newAppLogDispatcher "x") in
  events_run connection_refused (newAppLogDispatcher "x") = Returns d
  ∧ msgCh d = [entry 1] ∧ writer d = WToFlush (entry 0)
  ∧ flusher d = FErrCh "no reachable servers"
  ∧ inserted d = [] ∧ items (bulkBuffer d) = []
  ∧ recv_errCh d = Returns (Some "no reachable servers", set_flusher FReturned d).
Proof.
  intros d.
  split; [vm_compute; reflexivity|].
  split; [reflexivity|]. split; [reflexivity|].
  pose proof (LogConn_failure_is_stored "x" "no reachable servers"
                [Enqueue (entry 0)] [Task Writer; Enqueue (entry 1)] d) as H.
  destruct H as (Hf & Hi & Hb & Hr & _).
  - vm_compute; reflexivity.
  - intros Hin. repeat (apply elem_of_cons in Hin as [Hin|Hin]; [discriminate|]).
    by apply elem_of_nil in Hin.
  - auto.
Defined.

(** * Further properties of the code *)

(** ** The pipeline's goroutines *)

Lemma stored_prefix_of_sent_witness :
  let d := after hundredth_pending (newAppLogDispatcher "x") in
  events_run hundredth_pending (newAppLogDispatcher "x") = Returns d
  ∧ concat (inserted d) `prefix_of` sent hundredth_pending.
Proof.
  intros d. split; [vm_compute; reflexivity|].
  apply (stored_prefix_of_sent "x" hundredth_pending d).
  vm_compute; reflexivity.
Defined.

Lemma returned_pipeline_accounting_witness :
  let evs := [Enqueue (entry 0); CloseQueue] ++ map Task drain_one in
  let d := after evs (newAppLogDispatcher "x") in
  events_run evs (newAppLogDispatcher "x") = Returns d
  ∧ writer d = WDone
  ∧ sent evs = concat (inserted d) ++ items (bulkBuffer d)
  ∧ (len (bulkBuffer d) ≤ 100)%nat.
Proof.
  intros evs d. split; [vm_compute; reflexivity|]. split; [reflexivity|].
  apply (returned_pipeline_accounting "x" evs d).
  - vm_compute; reflexivity.
  - reflexivity.
Defined.

Lemma notified_step ev d d' :
  event_step ev d = Returns d' →
  notified d' ++ msgCh d'
  = (notified d ++ msgCh d) ++ match ev with Enqueue msg => [msg] | _ => [] end.
Proof.
  intros H. destruct d as [n q qc w f tm [bi bc] ck nt ins].
  inv_step H; simpl; rewrite ?app_nil_r, <- ?app_assoc; reflexivity.
Qed.

Lemma notified_run evs : ∀ d d',
  events_run evs d = Returns d' →
  notified d' ++ msgCh d' = (notified d ++ msgCh d) ++ sent evs.
Proof.
  induction evs as [|ev evs IH]; intros d d' H; simpl in H.
  - simplify_eq. by rewrite app_nil_r.
  - destruct (event_step ev d) as [d1| |] eqn:E; simplify_eq/=.
    rewrite (IH _ _ H), (notified_step _ _ _ E), <- app_assoc.
    f_equal. unfold sent. by destruct ev.
Qed.

(** X3: [runDBWriter] notifies the entries in the order they were sent, each
    before the flusher gets it, and is never more than one entry ahead
    of the flusher: what was notified is what was stored, then what is
    buffered, then the one entry the writer may hold. *)
Theorem notified_in_send_order name evs d :
  events_run evs (newAppLogDispatcher name) = Returns d →
  notified d ++ msgCh d = sent evs
  ∧ notified d = concat (inserted d) ++ items (bulkBuffer d) ++ in_handoff d
  ∧ (length (in_handoff d) ≤ 1)%nat.
Proof.
  intros H.
  pose proof (notified_run _ _ _ H) as Hn. simpl in Hn.
  pose proof (history_run _ _ _ H) as Hh. unfold history in Hh. simpl in Hh.
  split; [done|]. split.
  - rewrite <- Hn in Hh. rewrite !app_assoc in Hh.
    apply app_inv_tail in Hh. by rewrite <- app_assoc in Hh.
  - unfold in_handoff. destruct (writer d); simpl; lia.
Qed.

Lemma notified_in_send_order_witness :
  let d := after hundredth_pending (newAppLogDispatcher "x") in
  events_run hundredth_pending (newAppLogDispatcher "x") = Returns d
  ∧ notified d = entries 100
  ∧ notified d ++ msgCh d = sent hundredth_pending.
Proof.
  intros d. split; [vm_compute; reflexivity|]. split; [vm_compute; reflexivity|].
  refine (proj1 (notified_in_send_order "x" hundredth_pending d _)).
  vm_compute; reflexivity.
Defined.

(** X4: [coll.Insert] is never called with an empty batch nor with more than
    100 entries, and the buffer keeps its capacity of 100: [append]
    never reallocates it. *)
Theorem insert_batches_bounded name evs d :
  events_run evs (newAppLogDispatcher name) = Returns d →
  cap (bulkBuffer d) = 100%nat
  ∧ Forall (λ batch, batch ≠ [] ∧ (length batch ≤ 100)%nat) (inserted d)
  ∧ (∀ batch, insert_args d = Some batch →
       batch ≠ [] ∧ (length batch ≤ 100)%nat).
Proof.
  intros H.
  destruct (buffer_inv_run _ _ _ (buffer_inv_new name) H)
    as (Hc & Hl & _ & _ & Hi & Hb).
  split; [done|]. split.
  - eapply Forall_impl; [exact Hb|]. simpl. intros batch Hlen.
    split; [|lia]. intros ->. simpl in Hlen. lia.
  - unfold insert_args, len in *. intros batch Hb'.
    destruct (flusher d); simplify_eq. specialize (Hi eq_refl).
    split; [|lia]. intros Hnil. rewrite Hnil in Hi. simpl in Hi. lia.
Qed.

Lemma insert_batches_bounded_witness :
  let evs := hundredth_pending ++ [Task (Flusher EvToFlush)] in
  let d := after evs (newAppLogDispatcher "x") in
  events_run evs (newAppLogDispatcher "x") = Returns d
  ∧ insert_args d = Some (entries 100)
  ∧ cap (bulkBuffer d) = 100%nat.
Proof.
  intros evs d. split; [vm_compute; reflexivity|]. split; [vm_compute; reflexivity|].
  refine (proj1 (insert_batches_bounded "x" evs d _)).
  vm_compute; reflexivity.
Defined.

Lemma queue_bound_step ev d d' :
  queue_bound d → event_step ev d = Returns d' → queue_bound d'.
Proof.
  unfold queue_bound. intros Hq H.
  destruct d as [n q qc w f tm [bi bc] ck nt ins]; simpl in *.
  inv_step H; simpl in *; use_guards; rewrite ?length_app; simpl length;
    unfold msgCh_capacity in *; lia.
Qed.

(** X5: The ingestion queue never holds more than 10000 entries, and while
    it holds 10000 an open queue accepts nothing: the sender waits. *)
Theorem queue_never_overflows name evs d :
  events_run evs (newAppLogDispatcher name) = Returns d →
  (length (msgCh d) ≤ msgCh_capacity)%nat
  ∧ (∀ msg, length (msgCh d) = msgCh_capacity → msgCh_closed d = false →
       send_msgCh msg d = Stuck).
Proof.
  intros H. split.
  - assert (Hgen : ∀ evs d0 d1, queue_bound d0 →
                     events_run evs d0 = Returns d1 → queue_bound d1).
    { clear. induction evs as [|ev evs IH]; intros d0 d1 Hq H; simpl in H.
      - by simplify_eq.
      - destruct (event_step ev d0) as [d2| |] eqn:E; simplify_eq/=.
        eauto using queue_bound_step. }
    apply (Hgen evs (newAppLogDispatcher name) d); [|exact H].
    unfold queue_bound, msgCh_capacity. simpl length. lia.
  - intros msg Hlen Hc. unfold send_msgCh. rewrite Hc, Hlen.
    by rewrite Nat.ltb_irrefl.
Qed.

Lemma queue_never_overflows_witness :
  let d := after hundredth_pending (newAppLogDispatcher "x") in
  events_run hundredth_pending (newAppLogDispatcher "x") = Returns d
  ∧ (length (msgCh d) ≤ msgCh_capacity)%nat.
Proof.
  intros d. split; [vm_compute; reflexivity|].
  refine (proj1 (queue_never_overflows "x" hundredth_pending d _)).
  vm_compute; reflexivity.
Defined.

Lemma flusher_dead_step ev d d' :
  flusher_dead d → event_step ev d = Returns d' →
  flusher_dead d'
  ∧ inserted d' = inserted d ∧ bulkBuffer d' = bulkBuffer d
  ∧ (flusher d = FReturned ∨ ev = RecvErrCh → flusher d' = FReturned)
  ∧ (∀ m, writer d = WToFlush m →
       writer d' = WToFlush m ∧ notified d' = notified d
       ∧ msgCh d' = msgCh d ++ match ev with Enqueue msg => [msg] | _ => [] end).
Proof.
  intros Hdead H. destruct d as [n q qc w f tm [bi bc] ck nt ins].
  unfold flusher_dead in *. simpl in *.
  destruct Hdead as [->|[err ->]].
  - inv_step H; simpl; (split; [by left|]); repeat split; auto;
      try (intros; simplify_eq; by rewrite ?app_nil_r); try (by intros [?|?]).
  - inv_step H; simpl; (split; [eauto|]); repeat split; auto;
      try (intros; simplify_eq; by rewrite ?app_nil_r);
      try (by intros [?|?]).
Qed.

(** X6: Once the flusher has failed or returned it neither accepts nor
    inserts anything again, whatever is sent and however long one waits;
    and its error is handed out once: after a receive on [errCh] every
    further receive yields nil. *)
Theorem dead_flusher_is_final evs : ∀ d d',
  flusher_dead d → events_run evs d = Returns d' →
  flusher_dead d'
  ∧ inserted d' = inserted d ∧ bulkBuffer d' = bulkBuffer d
  ∧ (flusher d = FReturned ∨ RecvErrCh ∈ evs →
       recv_errCh d' = Returns (None, d')).
Proof.
  induction evs as [|ev evs IH]; intros d d' Hdead H; simpl in H.
  - simplify_eq. repeat split; auto. intros [Hf|Hin].
    + unfold recv_errCh. by rewrite Hf.
    + by apply elem_of_nil in Hin.
  - destruct (event_step ev d) as [d1| |] eqn:E; simplify_eq/=.
    destruct (flusher_dead_step _ _ _ Hdead E) as (Hdead1 & Hi1 & Hb1 & Hf1 & _).
    destruct (IH _ _ Hdead1 H) as (Hdead' & Hi' & Hb' & Hr').
    split; [done|]. split; [congruence|]. split; [congruence|].
    intros [Hf|Hin].
    + apply Hr'. left. apply Hf1. by left.
    + apply elem_of_cons in Hin as [<-|Hin].
      * apply Hr'. left. apply Hf1. by right.
      * apply Hr'. by right.
Qed.

Lemma dead_flusher_is_final_witness :
  let d := after connection_refused (newAppLogDispatcher "x") in
  let evs := [Enqueue (entry 2); RecvErrCh;
              Task (Elapse bulkMaxWaitTime); Task Expire; Enqueue (entry 3)] in
  flusher_dead d
  ∧ ∃ d', events_run evs d = Returns d'
      ∧ inserted d' = inserted d
      ∧ recv_errCh d' = Returns (None, d').
Proof.
  intros d evs.
  assert (Hdead : flusher_dead d) by (right; eexists; vm_compute; reflexivity).
  split; [exact Hdead|].
  exists (after evs d).
  assert (Hrun : events_run evs d = Returns (after evs d))
    by (vm_compute; reflexivity).
  split; [exact Hrun|].
  destruct (dead_flusher_is_final evs d (after evs d) Hdead Hrun)
    as (_ & Hi & _ & Hr).
  split; [exact Hi|]. apply Hr. right.
  apply elem_of_cons; right. apply elem_of_cons. by left.
Defined.

(** X7: When the flusher is gone while the writer holds an entry at the
    hand-off, the writer stays there for ever: it never returns, never
    closes [done], notifies nothing more, and what is sent from then on
    only piles up in the queue. *)
Theorem blocked_writer_never_returns evs : ∀ d d' m,
  flusher_dead d → writer d = WToFlush m →
  events_run evs d = Returns d' →
  writer d' = WToFlush m
  ∧ notified d' = notified d
  ∧ msgCh d' = msgCh d ++ sent evs.
Proof.
  induction evs as [|ev evs IH]; intros d d' m Hdead Hw H; simpl in H.
  - simplify_eq. by rewrite app_nil_r.
  - destruct (event_step ev d) as [d1| |] eqn:E; simplify_eq/=.
    destruct (flusher_dead_step _ _ _ Hdead E) as (Hdead1 & _ & _ & _ & Hw1).
    destruct (Hw1 m Hw) as (Hw1' & Hn1 & Hq1).
    destruct (IH _ _ m Hdead1 Hw1' H) as (Hw' & Hn' & Hq').
    split; [done|]. split; [congruence|].
    rewrite Hq', Hq1, <- app_assoc. f_equal. unfold sent. by destruct ev.
Qed.

Lemma blocked_writer_never_returns_witness :
  let d := after connection_refused (newAppLogDispatcher "x") in
  let evs := [Enqueue (entry 2); CloseQueue; RecvErrCh] in
  flusher_dead d ∧ writer d = WToFlush (entry 0)
  ∧ ∃ d', events_run evs d = Returns d'
      ∧ writer d' = WToFlush (entry 0)
      ∧ msgCh d' = [entry 1; entry 2].
Proof.
  intros d evs.
  assert (Hdead : flusher_dead d) by (right; eexists; vm_compute; reflexivity).
  split; [exact Hdead|]. split; [reflexivity|].
  exists (after evs d).
  assert (Hrun : events_run evs d = Returns (after evs d))
    by (vm_compute; reflexivity).
  split; [exact Hrun|].
  destruct (blocked_writer_never_returns evs d (after evs d) (entry 0)
              Hdead eq_refl Hrun) as (Hw & _ & Hq).
  split; [exact Hw|]. rewrite Hq. reflexivity.
Defined.

Lemma young_inv_step ev d d' :
  buffer_inv d → young_inv d → event_step ev d = Returns d' → young_inv d'.
Proof.
  intros (Hc & Hl & H0 & Hs & Hi & Hb) (Hck & Hw & HC & Hy) H.
  destruct d as [n q qc w f [tw tc] [bi bc] ck nt ins].
  unfold young_inv, len in *; simpl in *. subst bc.
  inv_step H; simpl in *.
  all: try specialize (Hw _ eq_refl).
  all: unfold bulkMaxWaitTime, Millisecond in *.
  all: repeat match goal with
       | H : (_ <=? _) = true |- _ => apply Z.leb_le in H
       | H : (_ <=? _) = false |- _ => apply Z.leb_gt in H
       end.
  all: use_guards.
  all: unfold len, append in *; simpl in *; rewrite ?length_app in *; simpl in *.
  all: repeat split; intros; simplify_eq; try lia.
  all: try (destruct Hy as [Hy1 Hy2]; [lia|]); auto.
  all: try (rewrite Forall_app, Forall_singleton; split; [done|]; auto).
Qed.

(** X8: During the first 500ms of a pipeline the timer has not fired, so the
    only inserts are size-triggered ones: every stored batch has exactly
    100 entries. *)
Theorem no_timer_flush_before_wait name evs d :
  events_run evs (newAppLogDispatcher name) = Returns d →
  clock d < bulkMaxWaitTime →
  C (t d) = false
  ∧ Forall (λ batch, length batch = 100%nat) (inserted d)
  ∧ runFlusher EvTimer d = Stuck.
Proof.
  intros H Hlt.
  assert (Hgen : ∀ evs d0 d1, buffer_inv d0 → young_inv d0 →
                   events_run evs d0 = Returns d1 → young_inv d1).
  { clear. induction evs as [|ev evs IH]; intros d0 d1 Hb Hy H; simpl in H.
    - by simplify_eq.
    - destruct (event_step ev d0) as [d2| |] eqn:E; simplify_eq/=.
      eauto using young_inv_step, buffer_inv_step. }
  assert (Hy0 : young_inv (newAppLogDispatcher name)).
  { unfold young_inv, bulkMaxWaitTime, Millisecond. simpl.
    repeat split; intros; simplify_eq; try lia; try done. }
  destruct (Hgen _ _ _ (buffer_inv_new name) Hy0 H) as (_ & _ & HC & Hy).
  assert (HCf : C (t d) = false).
  { destruct (C (t d)); [|done]. specialize (HC eq_refl). lia. }
  split; [done|]. split; [by apply Hy|].
  unfold runFlusher, recv_C. rewrite HCf. by destruct (flusher d).
Qed.

Lemma no_timer_flush_before_wait_witness :
  let evs := hundredth_pending_later
             ++ [Task (Flusher EvToFlush); Task (Flusher (EvInsert None))] in
  let d := after evs (newAppLogDispatcher "x") in
  events_run evs (newAppLogDispatcher "x") = Returns d
  ∧ clock d = 200 * Millisecond
  ∧ inserted d = [entries 100]
  ∧ C (t d) = false.
Proof.
  intros evs d. split; [vm_compute; reflexivity|].
  split; [vm_compute; reflexivity|]. split; [vm_compute; reflexivity|].
  refine (proj1 (no_timer_flush_before_wait "x" evs d _ _)).
  - vm_compute; reflexivity.
  - vm_compute; reflexivity.
Defined.

(** ** The dispatcher under any sequence of calls *)

Lemma Stop_tracked order d r d' :
  Stop order d = Returns (r, d') → tracked_inv d'.
Proof.
  intros H. apply Stop_result in H as (Hempty & _).
  intros name appD Hd. by rewrite Hempty, lookup_empty in Hd.
Qed.

Lemma Stop_retired order d r d' :
  retired_inv d → Stop order d = Returns (r, d') → retired_inv d'.
Proof.
  unfold retired_inv. intros Hinv H.
  apply Stop_result in H as (_ & results & _ & _ & _ & Hret & Hst & _).
  rewrite Hret. by apply Forall_app.
Qed.

Lemma calls_run_inv cls : ∀ d d',
  tracked_inv d → retired_inv d → calls_run cls d = Returns d' →
  tracked_inv d' ∧ retired_inv d'.
Proof.
  induction cls as [|cl cls IH]; intros d d' Ht Hr H; simpl in H.
  - by simplify_eq.
  - destruct (call_step cl d) as [d1| |] eqn:E; simplify_eq/=.
    apply (IH d1 d'); [| |done].
    + destruct cl as [pre sel msg|order|name s]; simpl in E.
      * destruct (Send pre sel msg d) as [[r d2]| |] eqn:Es; simplify_eq/=.
        eauto using Send_tracked.
      * destruct (Stop order d) as [[r d2]| |] eqn:Es; simplify_eq/=.
        eauto using Stop_tracked.
      * eauto using background_tracked.
    + destruct cl as [pre sel msg|order|name s]; simpl in E.
      * destruct (Send pre sel msg d) as [[r d2]| |] eqn:Es; simplify_eq/=.
        eauto using Send_retired.
      * destruct (Stop order d) as [[r d2]| |] eqn:Es; simplify_eq/=.
        eauto using Stop_retired.
      * unfold retired_inv.
        by rewrite (backgrounds_retired [(name, s)] d d1)
          by (simpl; by rewrite E).
Qed.

Lemma calls_run_never_panics cls : ∀ d reason,
  tracked_inv d → retired_inv d → calls_run cls d ≠ Panics reason.
Proof.
  induction cls as [|cl cls IH]; intros d reason Ht Hr H; simpl in H.
  - discriminate.
  - destruct (call_step cl d) as [d1| |] eqn:E; simplify_eq/=.
    + destruct (calls_run_inv [cl] d d1 Ht Hr) as [Ht1 Hr1].
      { simpl. by rewrite E. }
      by apply IH in H.
    + destruct cl as [pre sel msg|order|name s]; simpl in E.
      * destruct (Send pre sel msg d) as [[r d2]| |] eqn:Es; simplify_eq/=.
        by apply Send_never_panics in Es.
      * destruct (Stop order d) as [[r d2]| |] eqn:Es; simplify_eq/=.
        by apply Stop_from_never_panics in Es.
      * by apply background_never_panics in E.
Qed.

(** X9: Used by one caller at a time, a dispatcher never panics, whatever
    the order of [Send] and [Stop] calls and of the goroutines' steps:
    no send on a closed queue, no second close of a queue.  The routing
    table only ever holds open pipelines under their own application's
    name, and every pipeline taken out of it is closed with its flusher
    returned. *)
Theorem dispatcher_never_panics cls :
  (∀ reason, calls_run cls NewlogDispatcher ≠ Panics reason)
  ∧ ∀ d, calls_run cls NewlogDispatcher = Returns d →
      (∀ name appD, dispatchers d !! name = Some appD →
         msgCh_closed appD = false ∧ appName appD = name)
      ∧ Forall (λ appD, msgCh_closed appD = true ∧ flusher appD = FReturned)
               (retired d).
Proof.
  split.
  - intros reason. apply calls_run_never_panics; [apply tracked_inv_new|constructor].
  - intros d H.
    apply (calls_run_inv cls NewlogDispatcher d); [apply tracked_inv_new|constructor|done].
Qed.

(** A sequence of calls in which x is sent to, fails, is sent to again,
    everything is stopped, and x is sent to once more. *)
Lemma dispatcher_never_panics_witness :
  let cls := [CallSend [] CaseMsgCh (entry 0);
              Goroutine "x" (Flusher (EvLogConn (Some "no reachable servers")));
              CallSend [] CaseErrCh (entry 1);
              CallSend [] CaseMsgCh (entry 2);
              CallSend [] CaseMsgCh entry_y;
              CallStop [("y", drain_one); ("x", drain_one)];
              CallSend [] CaseMsgCh (entry 3)] in
  ∃ d, calls_run cls NewlogDispatcher = Returns d
       ∧ length (retired d) = 3%nat
       ∧ Forall (λ appD, msgCh_closed appD = true ∧ flusher appD = FReturned)
                (retired d).
Proof.
  intros cls. eexists. split; [vm_compute; reflexivity|].
  split; [reflexivity|].
  refine (proj2 (proj2 (dispatcher_never_panics cls) _ _)).
  vm_compute; reflexivity.
Defined.

(** X10: From every state a dispatcher can get into, a [Send] can complete
    and so can a [Stop]: the goroutines can always make a case of the
    [select] ready and bring every pipeline to its final status. *)
Theorem dispatcher_never_deadlocks cls d :
  calls_run cls NewlogDispatcher = Returns d →
  (∀ msg, ∃ pre sel r d', Send pre sel msg d = Returns (r, d'))
  ∧ (∃ order r d', Stop order d = Returns (r, d')).
Proof.
  intros H.
  destruct (calls_run_inv cls NewlogDispatcher d) as [Ht _];
    [apply tracked_inv_new|constructor|done|].
  split.
  - intros msg. by apply Send_can_return.
  - destruct d as [m ret]. unfold Stop. apply Stop_from_can_return.
    intros name appD Hd. by apply (Ht name appD).
Qed.

Lemma dispatcher_never_deadlocks_witness :
  let cls := [CallSend [] CaseMsgCh (entry 0);
              CallSend [] CaseMsgCh entry_y] in
  ∃ d, calls_run cls NewlogDispatcher = Returns d
       ∧ ∃ order r d', Stop order d = Returns (r, d').
Proof.
  intros cls. eexists. split; [vm_compute; reflexivity|].
  refine (proj2 (dispatcher_never_deadlocks cls _ _)).
  vm_compute; reflexivity.
Defined.

(** X11: After [Stop] the dispatcher is as good as new: a second [Stop]
    finds nothing to visit and returns nil, and a [Send] starts a
    brand-new pipeline for its application. *)
Theorem Stop_leaves_dispatcher_empty order d r d' :
  Stop order d = Returns (r, d') →
  Stop [] d' = Returns (None, d')
  ∧ (∀ order2 r2 d2, Stop order2 d' = Returns (r2, d2) →
       order2 = [] ∧ r2 = None ∧ d2 = d')
  ∧ (∀ msg, Send [] CaseMsgCh msg d'
            = Returns (None,
                       mkLogD {[AppName msg :=
                                  set_msgCh [msg] (newAppLogDispatcher (AppName msg))]}
                              (retired d'))).
Proof.
  intros H. apply Stop_result in H as (Hempty & _).
  split; [|split].
  - unfold Stop. simpl. rewrite Hempty, dom_empty_L. by rewrite decide_True.
  - intros order2 r2 d2 H2. unfold Stop in H2.
    destruct order2 as [|[n ss] order2]; simpl in H2.
    + destruct (decide _); by simplify_eq.
    + by rewrite Hempty, lookup_empty in H2.
  - intros msg. unfold Send. rewrite Hempty, lookup_empty. simpl.
    by rewrite insert_empty.
Qed.

Lemma Stop_leaves_dispatcher_empty_witness :
  ∃ r d', Stop [("y", drain_one); ("x", [])] two_apps = Returns (r, d')
          ∧ Stop [] d' = Returns (None, d').
Proof.
  eexists _, _. split; [vm_compute; reflexivity|].
  refine (proj1 (Stop_leaves_dispatcher_empty [("y", drain_one); ("x", [])]
                   two_apps _ _ _)).
  vm_compute; reflexivity.
Defined.

(** ** Applications do not interfere *)

Lemma same_app_lookup name d dn :
  same_app name d dn → dispatchers dn !! name = dispatchers d !! name.
Proof. intros [H _]. rewrite H. by rewrite decide_True. Qed.

Lemma same_app_insert name d dn appD :
  same_app name d dn →
  same_app name (mkLogD (<[name := appD]> (dispatchers d)) (retired d))
                (mkLogD (<[name := appD]> (dispatchers dn)) (retired dn)).
Proof.
  intros [Hm Hr]. split; [|done]. intros n. simpl.
  destruct (decide (n = name)) as [->|Hne].
  - by rewrite !lookup_insert_eq.
  - rewrite lookup_insert_ne by done. rewrite Hm. by rewrite decide_False.
Qed.

Lemma same_app_retire name d dn appD :
  same_app name d dn →
  same_app name (mkLogD (delete name (dispatchers d)) (retired d ++ [appD]))
                (mkLogD (delete name (dispatchers dn)) (retired dn ++ [appD])).
Proof.
  intros [Hm Hr]. split.
  - intros n. simpl. destruct (decide (n = name)) as [->|Hne].
    + by rewrite !lookup_delete_eq.
    + rewrite lookup_delete_ne by done. rewrite Hm. by rewrite decide_False.
  - simpl. by rewrite !filter_app, Hr.
Qed.

Lemma same_app_other_insert name d dn n appD :
  n ≠ name → same_app name d dn →
  same_app name (mkLogD (<[n := appD]> (dispatchers d)) (retired d)) dn.
Proof.
  intros Hne [Hm Hr]. split; [|done]. intros n'. simpl. rewrite Hm.
  destruct (decide (n' = name)) as [->|]; [|done].
  by rewrite lookup_insert_ne.
Qed.

Lemma same_app_other_retire name d dn n appD :
  n ≠ name → appName appD = n → same_app name d dn →
  same_app name (mkLogD (delete n (dispatchers d)) (retired d ++ [appD])) dn.
Proof.
  intros Hne Ha [Hm Hr]. split.
  - intros n'. simpl. rewrite Hm.
    destruct (decide (n' = name)) as [->|]; [|done].
    by rewrite lookup_delete_ne.
  - simpl. rewrite filter_app, Hr.
    rewrite (filter_cons_False _ appD) by (simpl; congruence).
    by rewrite filter_nil, app_nil_r.
Qed.

Lemma Send_about name pre sel msg d dn r d' :
  same_app name d dn → tracked_inv d →
  Send pre sel msg d = Returns (r, d') →
  if decide (AppName msg = name)
  then ∃ dn', Send pre sel msg dn = Returns (r, dn') ∧ same_app name d' dn'
  else same_app name d' dn.
Proof.
  intros Hsame Hinv H. unfold Send in *.
  destruct (decide (AppName msg = name)) as [Hn|Hn].
  - rewrite Hn in *. rewrite (same_app_lookup _ _ _ Hsame).
    destruct (run pre _) as [appD1| |]; simplify_eq/=.
    destruct sel.
    + destruct (send_msgCh msg appD1) as [appD2| |]; simplify_eq/=.
      eexists. split; [reflexivity|]. by apply same_app_insert.
    + destruct (recv_errCh appD1) as [[err appD2]| |]; simplify_eq/=.
      destruct (close_msgCh appD2) as [appD3| |]; simplify_eq/=.
      eexists. split; [reflexivity|]. by apply same_app_retire.
  - set (appD0 := match dispatchers d !! AppName msg with
                  | Some appD => appD
                  | None => newAppLogDispatcher (AppName msg)
                  end) in H.
    assert (H0 : appName appD0 = AppName msg).
    { subst appD0. destruct (dispatchers d !! AppName msg) eqn:Hd; [|done].
      by apply Hinv in Hd as [_ ?]. }
    destruct (run pre appD0) as [appD1| |] eqn:E; simplify_eq/=.
    apply run_keeps_closed in E as [_ Hn1].
    destruct sel.
    + destruct (send_msgCh msg appD1) as [appD2| |]; simplify_eq/=.
      by apply same_app_other_insert.
    + unfold recv_errCh, close_msgCh in H.
      destruct appD1 as [n0 q0 qc w f tm b ck nt ins]; simpl in *.
      destruct f, qc; simplify_eq/=.
      all: apply same_app_other_retire; [done| |done]; simpl; congruence.
Qed.

Lemma background_about name n s d dn d' :
  same_app name d dn →
  background n s d = Returns d' →
  if decide (n = name)
  then ∃ dn', background n s dn = Returns dn' ∧ same_app name d' dn'
  else same_app name d' dn.
Proof.
  intros Hsame H. unfold background in *.
  destruct (decide (n = name)) as [->|Hn].
  - rewrite (same_app_lookup _ _ _ Hsame).
    destruct (dispatchers d !! name) as [appD|]; simplify_eq/=.
    destruct (step s appD) as [appD'| |]; simplify_eq/=.
    eexists. split; [reflexivity|]. by apply same_app_insert.
  - destruct (dispatchers d !! n) as [appD|]; simplify_eq/=.
    destruct (step s appD) as [appD'| |]; simplify_eq/=.
    by apply same_app_other_insert.
Qed.

Lemma Stop_from_about name order : ∀ finalErr finalErr' d dn r d',
  same_app name d dn → tracked_inv d →
  Stop_from order finalErr d = Returns (r, d') →
  ∃ r' dn',
    Stop_from (filter (λ o, o.1 = name) order) finalErr' dn = Returns (r', dn')
    ∧ same_app name d' dn'.
Proof.
  induction order as [|[n ss] order IH];
    intros finalErr finalErr' d dn r d' Hsame Hinv H; simpl in H.
  - destruct (decide _) as [Hdom|]; simplify_eq/=.
    apply dom_empty_inv_L in Hdom.
    exists finalErr', dn. split; [|done].
    simpl. rewrite decide_True; [done|].
    apply dom_empty_iff_L. apply map_eq. intros n'.
    destruct Hsame as [Hm _]. rewrite Hm, Hdom, !lookup_empty.
    by destruct (decide _).
  - destruct (dispatchers d !! n) as [appD|] eqn:Hd; simplify_eq/=.
    destruct (stop_one ss appD) as [[err appD']| |] eqn:Es; simplify_eq/=.
    assert (Hinv1 : tracked_inv (mkLogD (delete n (dispatchers d))
                                        (retired d ++ [appD']))).
    { intros n' a Ha. simpl in Ha.
      apply lookup_delete_Some in Ha as [_ Ha]. by apply Hinv. }
    destruct (decide (n = name)) as [->|Hn].
    + rewrite filter_cons_True by done. simpl.
      rewrite (same_app_lookup _ _ _ Hsame), Hd, Es. simpl.
      eapply IH; [|exact Hinv1|exact H]. by apply same_app_retire.
    + rewrite filter_cons_False by done.
      eapply IH; [|exact Hinv1|exact H].
      apply same_app_other_retire; [done| |done].
      apply stop_one_stopped in Es as (_ & _ & ->). by apply Hinv in Hd as [_ ?].
Qed.

Lemma calls_run_about name cls : ∀ d dn d',
  same_app name d dn → tracked_inv d → retired_inv d →
  calls_run cls d = Returns d' →
  ∃ dn', calls_run (omap (about name) cls) dn = Returns dn'
         ∧ same_app name d' dn'.
Proof.
  induction cls as [|cl cls IH]; intros d dn d' Hsame Ht Hr H; simpl in H.
  - simplify_eq. exists dn. by split.
  - destruct (call_step cl d) as [d1| |] eqn:E; simplify_eq/=.
    destruct (calls_run_inv [cl] d d1 Ht Hr) as [Ht1 Hr1].
    { simpl. by rewrite E. }
    destruct cl as [pre sel msg|order|n s]; simpl in *.
    + destruct (Send pre sel msg d) as [[r d2]| |] eqn:Es; simplify_eq/=.
      pose proof (Send_about name _ _ _ _ _ _ _ Hsame Ht Es) as Ha.
      destruct (decide (AppName msg = name)) as [Hn|Hn].
      * destruct Ha as (dn1 & Hs1 & Hsame1). simpl. rewrite Hs1. simpl.
        by apply (IH d1).
      * by apply (IH d1).
    + destruct (Stop order d) as [[r d2]| |] eqn:Es; simplify_eq/=.
      destruct (Stop_from_about name order None None d dn r d1 Hsame Ht Es)
        as (r' & dn1 & Hs1 & Hsame1).
      unfold Stop. rewrite Hs1. simpl. by apply (IH d1).
    + pose proof (background_about name _ _ _ _ _ Hsame E) as Ha.
      destruct (decide (n = name)) as [Hn|Hn].
      * destruct Ha as (dn1 & Hs1 & Hsame1). simpl. rewrite Hs1. simpl.
        by apply (IH d1).
      * by apply (IH d1).
Qed.

(** X12: What a dispatcher holds and has stored for one application depends
    only on the calls that are about that application: dropping every
    [Send] and goroutine step of the other applications, and the other
    applications from the [Stop]s, leaves its pipeline and its stored
    batches the same.  One application's traffic or storage failure
    changes nothing for another. *)
Theorem applications_do_not_interfere name cls d :
  calls_run cls NewlogDispatcher = Returns d →
  ∃ dn, calls_run (omap (about name) cls) NewlogDispatcher = Returns dn
        ∧ dispatchers dn !! name = dispatchers d !! name
        ∧ persisted name dn = persisted name d.
Proof.
  intros H.
  destruct (calls_run_about name cls NewlogDispatcher NewlogDispatcher d)
    as (dn & Hrun & Hsame); [|apply tracked_inv_new|constructor|done|].
  { split; [|done]. intros n. simpl. rewrite lookup_empty. by destruct (decide _). }
  exists dn. split; [done|].
  pose proof (same_app_lookup _ _ _ Hsame) as Hl. split; [done|].
  unfold persisted. destruct Hsame as [_ Hr]. by rewrite Hr, Hl.
Qed.

Lemma applications_do_not_interfere_witness :
  let cls := [CallSend [] CaseMsgCh (entry 0);
              CallSend [] CaseMsgCh entry_y;
              Goroutine "x" (Flusher (EvLogConn (Some "no reachable servers")));
              Goroutine "y" (Flusher (EvLogConn None));
              CallSend [] CaseErrCh (entry 1);
              CallStop [("y", [Writer; Flusher EvToFlush; Writer; Flusher EvDone])]] in
  ∃ d dn,
    calls_run cls NewlogDispatcher = Returns d
    ∧ omap (about "y") cls
      = [CallSend [] CaseMsgCh entry_y;
         Goroutine "y" (Flusher (EvLogConn None));
         CallStop [("y", [Writer; Flusher EvToFlush; Writer; Flusher EvDone])]]
    ∧ calls_run (omap (about "y") cls) NewlogDispatcher = Returns dn
    ∧ persisted "y" dn = persisted "y" d.
Proof.
  intros cls.
  assert (Hrun : calls_run cls NewlogDispatcher
                 = Returns (returned (calls_run cls NewlogDispatcher) NewlogDispatcher))
    by (vm_compute; reflexivity).
  destruct (applications_do_not_interfere "y" cls _ Hrun) as (dn & Hdn & _ & Hp).
  eexists _, dn. split; [exact Hrun|]. split; [vm_compute; reflexivity|].
  split; [exact Hdn|exact Hp].
Defined.

(** ** More on the live listener *)

Section ListenerBookkeeping.
Variable unmarshal : string → Applog + error.
Variable Q : Type.
Variable UnSub : Q → call_result * Q.
Variable gosyntax : string → string.

Local Abbreviation lstep := (listener_step unmarshal UnSub gosyntax).
Local Abbreviation lrun := (listener_run unmarshal UnSub gosyntax).
Local Abbreviation taken := (received unmarshal UnSub gosyntax).

Ltac inv_lstep H :=
  unfold listener_step, forward, Close in H;
  repeat (simplify_eq/=; try case_match);
  simplify_eq/=.

Lemma forwarder_inv_step ev (l l' : LogListener Q) :
  forwarder_inv l → lstep ev l = Returns l' → forwarder_inv l'.
Proof.
  intros (Hc & Hr & Hret & Hcl) H.
  destruct l as [f q0 sc scc ch chc fw rc el dl].
  unfold forwarder_inv, in_flight, c_capacity in *; simpl in *.
  inv_lstep H; simpl in *.
  all: repeat match goal with
       | H : ?a = ?a → _ |- _ => specialize (H eq_refl)
       | H : _ ∧ _ |- _ => destruct H
       | H : (_ <? _)%nat = true |- _ => apply Nat.ltb_lt in H
       end.
  all: rewrite ?length_app in *; simpl in *.
  all: unfold c_capacity in *.
  all: repeat split; intros; simplify_eq/=; try lia; auto.
  all: try (exfalso;
            match goal with
            | H : ?a = ?a → _ |- _ => specialize (H eq_refl); discriminate
            end).
Qed.

Lemma forwarder_inv_run evs : ∀ l l' : LogListener Q,
  forwarder_inv l → lrun evs l = Returns l' → forwarder_inv l'.
Proof.
  induction evs as [|ev evs IH]; intros l l' Hinv H; simpl in H.
  - by simplify_eq.
  - destruct (lstep ev l) as [l1| |] eqn:E; simplify_eq/=.
    eauto using forwarder_inv_step.
Qed.

Lemma forwarder_inv_new pubSubQ filter (l0 : LogListener Q) :
  NewLogListener (inr pubSubQ) filter = inr l0 → forwarder_inv l0.
Proof.
  intros H. simpl in H. simplify_eq.
  unfold forwarder_inv, c_capacity. simpl. repeat split; intros; try done; lia.
Qed.

(** X13: The queue behind [C] never holds more than 10 entries; with 10
    waiting the goroutine cannot deliver and waits for the consumer. *)
Theorem listener_queue_bounded pubSubQ filter l0 evs l :
  NewLogListener (inr pubSubQ) filter = inr l0 →
  lrun evs l0 = Returns l →
  (length (c l) ≤ 10)%nat
  ∧ (∀ applog, forwarder l = LSend applog → length (c l) = 10%nat →
       forward unmarshal l = Stuck).
Proof.
  intros Hnew H.
  destruct (forwarder_inv_run _ _ _ (forwarder_inv_new _ _ _ Hnew) H)
    as (Hc & _ & _ & Hcl).
  split; [exact Hc|]. intros applog Hf Hlen.
  unfold forward. rewrite Hf.
  destruct (c_closed l) eqn:E; [by rewrite (Hcl eq_refl) in Hf|].
  by rewrite Hlen.
Qed.

(** X14: Each [defer func() { recover() }()] of the loop stays registered
    until the goroutine returns: after any run there are as many as
    entries sent into [C] or about to be. *)
Theorem deferred_recovers_pile_up pubSubQ filter l0 evs l :
  NewLogListener (inr pubSubQ) filter = inr l0 →
  lrun evs l0 = Returns l →
  recovers l = length (delivered l ++ in_flight l).
Proof.
  intros Hnew H.
  by destruct (forwarder_inv_run _ _ _ (forwarder_inv_new _ _ _ Hnew) H)
    as (_ & Hr & _).
Qed.

(** X15: The goroutine returns only once the subscription channel is closed
    and read to its end; it has then delivered every matching entry and
    closed [C].  Nothing else closes [C]. *)
Theorem forwarder_returns_after_draining pubSubQ filter l0 evs l :
  NewLogListener (inr pubSubQ) filter = inr l0 →
  lrun evs l0 = Returns l →
  (c_closed l = true ↔ forwarder l = LReturned)
  ∧ (forwarder l = LReturned →
       subChan_closed l = true ∧ subChan l = []
       ∧ delivered l = selected unmarshal filter (published evs)).
Proof.
  intros Hnew H.
  destruct (forwarder_inv_run _ _ _ (forwarder_inv_new _ _ _ Hnew) H)
    as (_ & _ & Hret & Hcl).
  split; [split; [exact Hcl|by intros (_ & _ & ?)%Hret]|].
  intros Hf. destruct (Hret Hf) as (Hs & Hsc & _).
  split; [done|]. split; [done|].
  simpl in Hnew. simplify_eq.
  apply (flow_run unmarshal Q UnSub gosyntax) in H as [Hfl Hflow].
  unfold flow, in_flight in Hflow. simpl in *.
  rewrite Hs, Hf, Hfl in Hflow. simpl in Hflow.
  by rewrite app_nil_r in Hflow.
Qed.

Lemma received_run evs : ∀ (l l' : LogListener Q) before,
  lrun evs l = Returns l' →
  before ++ c l = delivered l →
  (before ++ taken evs l) ++ c l' = delivered l'.
Proof.
  induction evs as [|ev evs IH]; intros l l' before H Hb; simpl in *.
  - simplify_eq. by rewrite app_nil_r.
  - destruct (lstep ev l) as [l1| |] eqn:E; simplify_eq/=.
    rewrite app_assoc. apply (IH l1); [done|].
    destruct l as [f q0 sc scc ch chc fw rc el dl]. simpl in *.
    destruct ev; simpl in E.
    + destruct scc; simplify_eq/=. by rewrite app_nil_r.
    + simplify_eq/=. by rewrite app_nil_r.
    + unfold forward in E. simpl in E.
      destruct fw as [|applog|]; [destruct sc as [|msg sc]| |]; simplify_eq/=.
      * destruct scc, chc; simplify_eq/=. by rewrite app_nil_r.
      * destruct (unmarshal msg) as [applog|e]; simplify_eq/=;
          [|by rewrite app_nil_r].
        destruct (matches f applog); simplify_eq/=; by rewrite app_nil_r.
      * destruct chc; [destruct rc; discriminate|].
        destruct (_ <? _)%nat; simplify_eq/=.
        by rewrite !app_nil_r, ?app_assoc.
    + destruct ch as [|a ch]; [destruct chc|]; simplify_eq/=;
        rewrite ?app_nil_r; try done.
      by rewrite <- app_assoc.
    + unfold Close in E. simpl in E.
      destruct (UnSub q0) as [[e|v] q1]; simplify_eq/=; by rewrite app_nil_r.
Qed.

(** X16: The consumer receives from [C] what the goroutine sent into it, in
    the same order, nothing twice and nothing skipped: what was taken
    followed by what still waits is what was delivered. *)
Theorem consumer_receives_in_order pubSubQ filter l0 evs l :
  NewLogListener (inr pubSubQ) filter = inr l0 →
  lrun evs l0 = Returns l →
  taken evs l0 ++ c l = delivered l
  ∧ taken evs l0 `prefix_of` selected unmarshal filter (published evs).
Proof.
  intros Hnew H.
  assert (Hb : ([] : list Applog) ++ c l0 = delivered l0).
  { simpl in Hnew. by simplify_eq. }
  pose proof (received_run evs l0 l [] H Hb) as Hr. simpl in Hr.
  split; [exact Hr|].
  simpl in Hnew. simplify_eq.
  apply (flow_run unmarshal Q UnSub gosyntax) in H as [Hfl Hflow].
  unfold flow in Hflow. simpl in Hflow. rewrite Hfl in Hflow. simpl in Hflow.
  rewrite <- Hflow, <- Hr, <- !app_assoc. by eexists.
Qed.

Lemma ignored_step ev (l l' : LogListener Q) :
  lstep ev l = Returns l' →
  errlog l' ++ ignored_lines unmarshal (subChan l')
  = (errlog l ++ ignored_lines unmarshal (subChan l))
    ++ ignored_lines unmarshal (published [ev]).
Proof.
  intros H. destruct l as [f q0 sc scc ch chc fw rc el dl]. simpl in *.
  destruct ev; simpl in H.
  - destruct scc; simplify_eq/=. unfold ignored_lines.
    by rewrite omap_app, app_assoc.
  - simplify_eq/=. by rewrite app_nil_r.
  - unfold forward in H. simpl in H.
    destruct fw as [|applog|]; [destruct sc as [|msg sc]| |]; simplify_eq/=.
    + destruct scc, chc; simplify_eq/=. by rewrite !app_nil_r.
    + unfold ignored_lines; simpl.
      destruct (unmarshal msg) as [applog|e] eqn:E; simplify_eq/=.
      * destruct (matches f applog); simplify_eq/=; by rewrite !app_nil_r.
      * by rewrite !app_nil_r, <- app_assoc.
    + destruct chc; [destruct rc; discriminate|].
      destruct (_ <? _)%nat; simplify_eq/=. by rewrite !app_nil_r.
  - destruct ch as [|a ch]; [destruct chc|]; simplify_eq/=; by rewrite !app_nil_r.
  - unfold Close in H. simpl in H. destruct (UnSub q0) as [[e|v] q1];
      simplify_eq/=; by rewrite !app_nil_r.
Qed.

(** X17: A message that does not decode is only logged, once, with its
    text, and the goroutine goes on: the log of the goroutine followed by
    the lines for the unread messages is one line for each undecodable
    message published, in order. *)
Theorem unparsable_messages_are_logged pubSubQ filter l0 evs l :
  NewLogListener (inr pubSubQ) filter = inr l0 →
  lrun evs l0 = Returns l →
  errlog l ++ ignored_lines unmarshal (subChan l)
  = ignored_lines unmarshal (published evs)
  ∧ (subChan l = [] → errlog l = ignored_lines unmarshal (published evs))
  ∧ (∀ line, line ∈ errlog l →
       ∃ msg err, msg ∈ published evs ∧ unmarshal msg = inr err
                  ∧ line = "Unparsable log message, ignoring: " +:+ msg).
Proof.
  intros Hnew H. simpl in Hnew. simplify_eq.
  assert (Hgen : ∀ evs (l l' : LogListener Q), lrun evs l = Returns l' →
            errlog l' ++ ignored_lines unmarshal (subChan l')
            = (errlog l ++ ignored_lines unmarshal (subChan l))
              ++ ignored_lines unmarshal (published evs)).
  { clear. induction evs as [|ev evs IH]; intros l l' H; simpl in H.
    - simplify_eq. by rewrite app_nil_r.
    - destruct (lstep ev l) as [l1| |] eqn:E; [|discriminate..].
      change (lrun evs l1 = Returns l') in H.
      rewrite (IH _ _ H), (ignored_step _ _ _ E), <- app_assoc. f_equal.
      unfold ignored_lines. rewrite <- omap_app. f_equal. by destruct ev. }
  apply Hgen in H. simpl in H.
  split; [exact H|]. split.
  - intros Hs. rewrite Hs in H. simpl in H. by rewrite app_nil_r in H.
  - intros line Hin.
    assert (Hin' : line ∈ ignored_lines unmarshal (published evs)).
    { rewrite <- H. apply elem_of_app. by left. }
    unfold ignored_lines in Hin'. apply list_elem_of_omap in Hin' as (msg & Hm & Hl).
    destruct (unmarshal msg) as [a|err] eqn:E; simplify_eq. eauto.
Qed.

End ListenerBookkeeping.

Lemma listener_queue_bounded_witness :
  ∃ l0 l,
    NewLogListener (inr true) app_filter = inr l0
    ∧ listener_run sample_unmarshal sample_UnSub sample_gosyntax sample_listening l0
      = Returns l
    ∧ (length (c l) ≤ 10)%nat.
Proof.
  eexists _, _. split; [reflexivity|]. split; [vm_compute; reflexivity|].
  refine (proj1 (listener_queue_bounded sample_unmarshal bool sample_UnSub
                   sample_gosyntax true app_filter _ sample_listening _ _ _)).
  - reflexivity.
  - vm_compute; reflexivity.
Defined.

Lemma deferred_recovers_pile_up_witness :
  ∃ l0 l,
    NewLogListener (inr true) app_filter = inr l0
    ∧ listener_run sample_unmarshal sample_UnSub sample_gosyntax sample_listening l0
      = Returns l
    ∧ recovers l = 2%nat
    ∧ recovers l = length (delivered l ++ in_flight l).
Proof.
  eexists _, _. split; [reflexivity|]. split; [vm_compute; reflexivity|].
  split; [reflexivity|].
  refine (deferred_recovers_pile_up sample_unmarshal bool sample_UnSub
            sample_gosyntax true app_filter _ sample_listening _ _ _).
  - reflexivity.
  - vm_compute; reflexivity.
Defined.

Lemma forwarder_returns_after_draining_witness :
  ∃ l0 l,
    NewLogListener (inr true) app_filter = inr l0
    ∧ listener_run sample_unmarshal sample_UnSub sample_gosyntax sample_listening l0
      = Returns l
    ∧ forwarder l = LReturned
    ∧ (c_closed l = true ↔ forwarder l = LReturned).
Proof.
  eexists _, _. split; [reflexivity|]. split; [vm_compute; reflexivity|].
  split; [reflexivity|].
  refine (proj1 (forwarder_returns_after_draining sample_unmarshal bool sample_UnSub
                   sample_gosyntax true app_filter _ sample_listening _ _ _)).
  - reflexivity.
  - vm_compute; reflexivity.
Defined.

Lemma consumer_receives_in_order_witness :
  ∃ l0 l,
    NewLogListener (inr true) app_filter = inr l0
    ∧ listener_run sample_unmarshal sample_UnSub sample_gosyntax sample_listening l0
      = Returns l
    ∧ received sample_unmarshal sample_UnSub sample_gosyntax sample_listening l0
      = [mkApplog 0 "one" "app" "x" "u1"]
    ∧ received sample_unmarshal sample_UnSub sample_gosyntax sample_listening l0
      ++ c l = delivered l.
Proof.
  eexists _, _. split; [reflexivity|]. split; [vm_compute; reflexivity|].
  split; [vm_compute; reflexivity|].
  refine (proj1 (consumer_receives_in_order sample_unmarshal bool sample_UnSub
                   sample_gosyntax true app_filter _ sample_listening _ _ _)).
  - reflexivity.
  - vm_compute; reflexivity.
Defined.

Lemma unparsable_messages_are_logged_witness :
  ∃ l0 l,
    NewLogListener (inr true) app_filter = inr l0
    ∧ listener_run sample_unmarshal sample_UnSub sample_gosyntax sample_listening l0
      = Returns l
    ∧ errlog l = ["Unparsable log message, ignoring: not a message"]
    ∧ errlog l ++ ignored_lines sample_unmarshal (subChan l)
      = ignored_lines sample_unmarshal (published sample_listening).
Proof.
  eexists _, _. split; [reflexivity|]. split; [vm_compute; reflexivity|].
  split; [reflexivity|].
  refine (proj1 (unparsable_messages_are_logged sample_unmarshal bool sample_UnSub
                   sample_gosyntax true app_filter _ sample_listening _ _ _)).
  - reflexivity.
  - vm_compute; reflexivity.
Defined.

(** ** More on the endpoint *)

Section EndpointVerdict.
Variable unmarshal : string → Applog + error.
Variable TrimSpace : string → string.
Variable quote : string → string.
Variable InternalAppName : string.

Local Abbreviation scan := (scan_loop unmarshal TrimSpace).
Local Abbreviation serve := (addLogs unmarshal TrimSpace quote InternalAppName).
Local Abbreviation unparsable := (first_unparsable unmarshal TrimSpace).


(** X18: The producer is told of success exactly when its token is the
    internal application's, every non-blank line decoded, [Stop]
    returned nil and the scanner ended without error.  What the [Send]
    calls returned plays no part: their errors go to the log only. *)
Theorem addLogs_reports_success_iff token lines scanErr cs res :
  serve token lines scanErr cs = Returns res →
  (ws res = [WsWrite None; WsClose] ↔
   token = Some InternalAppName ∧ unparsable lines = None ∧ scanErr = None
   ∧ ∃ log d d1 d2,
       scan lines (sends cs) [] NewlogDispatcher = Returns (LoopEnd, log, d)
       ∧ backgrounds (stop_bg cs) d = Returns d1
       ∧ Stop (stop_order cs) d1 = Returns (None, d2)
       ∧ oplog res = log)
  ∧ (∀ e d d1 d2 log,
       token = Some InternalAppName → unparsable lines = None →
       scan lines (sends cs) [] NewlogDispatcher = Returns (LoopEnd, log, d) →
       backgrounds (stop_bg cs) d = Returns d1 →
       Stop (stop_order cs) d1 = Returns (Some e, d2) →
       ws res = [WsWrite (Some ("wslogs: error storing log: " +:+ e)); WsClose]).
Proof.
  intros H. unfold addLogs in H.
  destruct token as [tokenApp|]; simplify_eq/=.
  2:{ split; [split; [discriminate|by intros [? _]]|]. intros; discriminate. }
  destruct (String.eqb tokenApp InternalAppName) eqn:Ht; simplify_eq/=.
  2:{ apply String.eqb_neq in Ht.
      split; [split; [discriminate|intros [? _]; congruence]|].
      intros; congruence. }
  apply String.eqb_eq in Ht as ->.
  destruct (scan lines _ _ _) as [[[exit log] d]| |] eqn:E; simplify_eq/=.
  destruct (backgrounds _ d) as [d1| |] eqn:E1; simplify_eq/=.
  destruct (Stop _ d1) as [[err d2]| |] eqn:E2; simplify_eq/=.
  pose proof (scan_loop_exit _ _ _ _ _ _ _ _ _ E) as Hexit.
  destruct exit as [|data perr].
  - destruct (unparsable lines) as [[? ?]|] eqn:Hu; [discriminate|].
    destruct err as [e|]; [|destruct scanErr as [e|]]; simplify_eq/=.
    + split; [split; [discriminate|]|].
      * intros (_ & _ & _ & log' & d' & d1' & d2' & Ha & Hb & Hc & _).
        simplify_eq. rewrite E1 in Hb. simplify_eq.
        rewrite E2 in Hc. simplify_eq.
      * intros e' d' d1' d2' log' _ _ Ha Hb Hc.
        simplify_eq. rewrite E1 in Hb. simplify_eq.
        rewrite E2 in Hc. by simplify_eq.
    + split; [split; [discriminate|by intros (_ & _ & ? & _)]|].
      intros e' d' d1' d2' log' _ _ Ha Hb Hc.
      simplify_eq. rewrite E1 in Hb. simplify_eq.
      rewrite E2 in Hc. simplify_eq.
    + split; [split|].
      * intros _. repeat split; auto. by exists log, d, d1, d2.
      * done.
      * intros e' d' d1' d2' log' _ _ Ha Hb Hc.
        simplify_eq. rewrite E1 in Hb. simplify_eq.
        rewrite E2 in Hc. simplify_eq.
  - destruct (unparsable lines) as [[? ?]|] eqn:Hu; simplify_eq/=.
    split; [split; [discriminate|by intros (_ & ? & _)]|].
    intros; discriminate.
Qed.


End EndpointVerdict.

Lemma addLogs_reports_success_iff_witness :
  ∃ res,
    addLogs sample_unmarshal sample_TrimSpace sample_quote "tsr"
            (Some "tsr") three_lines None storage_outage_sched = Returns res
    ∧ oplog res = ["wslogs: error storing log: no reachable servers"]
    ∧ (ws res = [WsWrite None; WsClose] ↔
       Some "tsr" = Some "tsr"
       ∧ first_unparsable sample_unmarshal sample_TrimSpace three_lines = None
       ∧ (None : option error) = None
       ∧ ∃ log d d1 d2,
           scan_loop sample_unmarshal sample_TrimSpace three_lines
             (sends storage_outage_sched) [] NewlogDispatcher
           = Returns (LoopEnd, log, d)
           ∧ backgrounds (stop_bg storage_outage_sched) d = Returns d1
           ∧ Stop (stop_order storage_outage_sched) d1 = Returns (None, d2)
           ∧ oplog res = log).
Proof.
  eexists. split; [vm_compute; reflexivity|]. split; [reflexivity|].
  refine (proj1 (addLogs_reports_success_iff sample_unmarshal sample_TrimSpace
                   sample_quote "tsr" (Some "tsr") three_lines None
                   storage_outage_sched _ _)).
  vm_compute; reflexivity.
Defined.


(** ** [notify] and the topic *)

(** Different applications have different topics. *)
Lemma logQueueName_inj a b : logQueueName a = logQueueName b → a = b.
Proof. unfold logQueueName. apply String.app_inj. Qed.

Lemma omap_length_le {A B : Type} (f : A → option B) (l : list A) :
  (length (omap f l) ≤ length l)%nat.
Proof.
  induction l as [|x l IH]; simpl; [lia|].
  destruct (f x); simpl; [apply le_n_S|apply le_S]; exact IH.
Qed.

Section NotifyProperties.
Variable marshal : Applog → string + error.
Variable unmarshal : string → Applog + error.

Lemma notify_loop_spec topic messages : ∀ pubs calls log,
  notify_loop marshal topic messages pubs = (calls, log) →
  map pub_bytes calls = marshalled marshal messages
  ∧ Forall (λ p, pub_topic p = topic) calls
  ∧ Forall (λ line, ∃ e, line = "Error on logs notify: " +:+ e) log
  ∧ (length log + length (on_topic calls) = length messages)%nat
  ∧ (Forall (λ r, r = None) pubs →
       on_topic calls = marshalled marshal messages ∧
       length log = (length messages - length calls)%nat).
Proof.
  induction messages as [|msg messages IH]; intros pubs calls log H; simpl in H.
  - simplify_eq. repeat split; auto.
  - unfold marshalled. simpl. fold (marshalled marshal messages).
    destruct (marshal msg) as [bytes|err].
    + destruct (notify_loop marshal topic messages (tl pubs)) as [calls' log'] eqn:E.
      simplify_eq. destruct (IH _ _ _ E) as (Hb & Ht & Hl & Hn & Hok).
      split; [simpl; by rewrite Hb|]. split; [by constructor|].
      destruct (hd None pubs) as [err|] eqn:Hhd.
      * change (on_topic (mkPub topic bytes (Some err) :: calls'))
          with (on_topic calls').
        split; [constructor; eauto|]. split; [simpl; lia|].
        intros HF. destruct pubs as [|r pubs]; simplify_eq/=.
        by apply Forall_cons in HF as [? _].
      * change (on_topic (mkPub topic bytes None :: calls'))
          with (bytes :: on_topic calls').
        split; [done|]. split; [simpl; lia|].
        intros HF. destruct Hok as [Hok1 Hok2].
        { destruct pubs; [constructor|]. by apply Forall_cons in HF as [_ ?]. }
        split; [by rewrite Hok1|]. simpl. exact Hok2.
    + destruct (notify_loop marshal topic messages pubs) as [calls' log'] eqn:E.
      simplify_eq. destruct (IH _ _ _ E) as (Hb & Ht & Hl & Hn & Hok).
      split; [done|]. split; [done|]. split; [constructor; eauto|].
      simpl. split; [lia|]. intros HF. destruct (Hok HF) as [Hok1 Hok2].
      split; [done|].
      assert (Hle : (length (marshalled marshal messages) ≤ length messages)%nat)
        by apply omap_length_le.
      rewrite <- Hb, length_map in Hle. lia.
Qed.

(** X20: [notify] is best effort.  Without a factory or a topic it publishes
    nothing and logs one line.  Otherwise it calls [Pub] once for every
    message that marshals, in order, on the application's own topic and
    on no other application's; a message that does not marshal or a
    [Pub] that fails costs one log line and does not keep the later
    messages from being published. *)
Theorem notify_is_best_effort answers appName messages calls log :
  notify marshal answers appName messages = (calls, log) →
  Forall (λ line, ∃ e, line = "Error on logs notify: " +:+ e) log
  ∧ Forall (λ p, pub_topic p = logQueueName appName) calls
  ∧ (∀ other, other ≠ appName →
       Forall (λ p, pub_topic p ≠ logQueueName other) calls)
  ∧ (factory_err answers = None → pubsub_err answers = None →
       map pub_bytes calls = marshalled marshal messages
       ∧ (length log + length (on_topic calls) = length messages)%nat
       ∧ (Forall (λ r, r = None) (pub_errs answers) →
            on_topic calls = marshalled marshal messages))
  ∧ (factory_err answers ≠ None ∨ pubsub_err answers ≠ None →
       calls = [] ∧ length log = 1%nat).
Proof.
  intros H. unfold notify in H.
  assert (Hother : ∀ calls, Forall (λ p, pub_topic p = logQueueName appName) calls →
            ∀ other, other ≠ appName →
              Forall (λ p, pub_topic p ≠ logQueueName other) calls).
  { intros cs HF other Hne. eapply Forall_impl; [exact HF|]. simpl.
    intros p -> Heq. by apply logQueueName_inj in Heq. }
  destruct (factory_err answers) as [e|] eqn:Hf; simplify_eq.
  { repeat split; auto; try (intros; discriminate). constructor; eauto. }
  destruct (pubsub_err answers) as [e|] eqn:Hp; simplify_eq.
  { repeat split; auto; try (intros; discriminate). constructor; eauto. }
  destruct (notify_loop_spec _ _ _ _ _ H) as (Hb & Ht & Hl & Hn & Hok).
  split; [done|]. split; [done|]. split; [by apply Hother|].
  split.
  - intros _ _. split; [done|]. split; [done|]. intros HF. by apply Hok.
  - intros [?|?]; done.
Qed.

(** X21: With a healthy queue, what [notify] publishes for entries that
    survive marshalling and unmarshalling is what a listener of the
    application selects: it delivers to its consumer exactly the
    notified entries that match its filter, in order. *)
Theorem notified_entries_reach_listener answers appName messages calls log
    wanted :
  Forall (λ a, ∃ b, marshal a = inl b ∧ unmarshal b = inl a) messages →
  factory_err answers = None → pubsub_err answers = None →
  Forall (λ r, r = None) (pub_errs answers) →
  notify marshal answers appName messages = (calls, log) →
  log = []
  ∧ selected unmarshal wanted (on_topic calls)
    = filter (λ a, matches wanted a = true) messages
  ∧ ∀ (Q : Type) (UnSub : Q → call_result * Q) gosyntax pubSubQ l0 evs l,
      NewLogListener (inr pubSubQ) wanted = inr l0 →
      listener_run unmarshal UnSub gosyntax evs l0 = Returns l →
      published evs = on_topic calls →
      subChan l = [] → in_flight l = [] →
      delivered l = filter (λ a, matches wanted a = true) messages.
Proof.
  intros Hrt Hf Hp Hpubs H. unfold notify in H. rewrite Hf, Hp in H.
  destruct (notify_loop_spec _ _ _ _ _ H) as (Hb & _ & _ & _ & Hok).
  destruct (Hok Hpubs) as [Hon Hlen].
  assert (Hm : length (marshalled marshal messages) = length messages
               ∧ selected unmarshal wanted (marshalled marshal messages)
                 = filter (λ a, matches wanted a = true) messages).
  { clear -Hrt. induction Hrt as [|a messages (b & Hma & Hun) _ [IH1 IH2]];
      [done|].
    assert (He : marshalled marshal (a :: messages)
                 = b :: marshalled marshal messages).
    { unfold marshalled. simpl. by rewrite Hma. }
    assert (Hs : ∀ rest, selected unmarshal wanted (b :: rest)
                 = (if matches wanted a then [a] else [])
                   ++ selected unmarshal wanted rest).
    { intros rest. unfold selected. simpl. rewrite Hun.
      by destruct (matches wanted a). }
    rewrite He, Hs, IH2. split; [simpl; by rewrite IH1|].
    destruct (matches wanted a) eqn:E.
    - by rewrite filter_cons_True.
    - rewrite filter_cons_False; [done|]. by rewrite E. }
  destruct Hm as [Hm1 Hm2].
  assert (Hlog : log = []).
  { apply nil_length_inv. rewrite Hlen.
    rewrite <- (length_map pub_bytes calls), Hb, Hm1. lia. }
  split; [done|]. split; [by rewrite Hon|].
  intros Q UnSub gosyntax pubSubQ l0 evs l Hnew Hrun Hpub Hs Hi.
  simpl in Hnew. simplify_eq.
  apply (flow_run unmarshal Q UnSub gosyntax) in Hrun as [Hfl Hflow].
  unfold flow in Hflow. simpl in Hflow.
  rewrite Hfl, Hs, Hi, Hpub, Hon, Hm2 in Hflow. simpl in Hflow.
  by rewrite !app_nil_r in Hflow.
Qed.

End NotifyProperties.

Lemma notify_is_best_effort_witness :
  ∃ calls log,
    notify sample_marshal flaky_queue "x" sample_messages = (calls, log)
    ∧ calls = [mkPub "pubsub:x" "x:app:u1:one" None;
               mkPub "pubsub:x" "x:web:u2:three" (Some "connection reset")]
    ∧ log = ["Error on logs notify: unsupported value";
             "Error on logs notify: connection reset"]
    ∧ Forall (λ p, pub_topic p = logQueueName "x") calls.
Proof.
  eexists _, _. split; [vm_compute; reflexivity|].
  split; [reflexivity|]. split; [reflexivity|].
  refine (proj1 (proj2 (notify_is_best_effort sample_marshal flaky_queue "x"
                          sample_messages _ _ _))).
  vm_compute; reflexivity.
Defined.

Lemma notified_entries_reach_listener_witness :
  ∃ calls log,
    notify sample_marshal healthy_queue "x" good_messages = (calls, log)
    ∧ log = []
    ∧ selected sample_unmarshal app_filter (on_topic calls)
      = [mkApplog 0 "one" "app" "x" "u1"; mkApplog 0 "three" "app" "x" "u2"]
    ∧ selected sample_unmarshal app_filter (on_topic calls)
      = filter (λ a, matches app_filter a = true) good_messages.
Proof.
  eexists _, _. split; [vm_compute; reflexivity|].
  split; [reflexivity|]. split; [vm_compute; reflexivity|].
  refine (proj1 (proj2 (notified_entries_reach_listener sample_marshal
                          sample_unmarshal healthy_queue "x" good_messages
                          _ _ app_filter _ _ _ _ _))).
  - repeat constructor; eexists; split; vm_compute; reflexivity.
  - reflexivity.
  - reflexivity.
  - constructor.
  - vm_compute; reflexivity.
Defined.
